(** * fs_bench: the file-system workload generator (FSCache/fs_bench.c)

    A shallow embedding of [main] of fs_bench.c and the properties of its
    argument parsing, planning and read loop.

    Platform: LP64 Linux, as the build line of the source assumes
    ([size_t], [unsigned long], [unsigned long long] are 64-bit unsigned;
    [long long], [off_t], [ssize_t] are 64-bit signed; [int] and
    [unsigned int] are 32 bits).  Integers are mathematical [Z]; every
    conversion and every arithmetic operation of the source that can leave
    the range of its C type is written with its wrap-around. *)

From Stdlib Require Import ZArith List String Ascii Bool Lia Sorted.
Import ListNotations.
Open Scope Z_scope.

(** ** Machine integers *)

Module CInt.

Definition ULLONG_MAX : Z := 2 ^ 64 - 1.
Definition LLONG_MAX : Z := 2 ^ 63 - 1.
Definition LLONG_MIN : Z := - 2 ^ 63.
Definition RAND_MAX : Z := 2 ^ 31 - 1.

(** Conversion to a 64-bit unsigned type ([size_t], [unsigned long]). *)
Definition to_u64 (z : Z) : Z := z mod 2 ^ 64.

(** Conversion to a 64-bit signed type ([long long], [off_t]). *)
Definition to_s64 (z : Z) : Z := (z + 2 ^ 63) mod 2 ^ 64 - 2 ^ 63.

(** Conversion to [unsigned int]. *)
Definition to_u32 (z : Z) : Z := z mod 2 ^ 32.

(** [long long] arithmetic.  C division truncates towards zero ([Z.quot])
    and [%] takes the sign of the dividend ([Z.rem]). *)
Definition ll_add (a b : Z) : Z := to_s64 (a + b).
Definition ll_sub (a b : Z) : Z := to_s64 (a - b).
Definition ll_mul (a b : Z) : Z := to_s64 (a * b).
Definition ll_div (a b : Z) : Z := to_s64 (Z.quot a b).
Definition ll_rem (a b : Z) : Z := Z.rem a b.

Definition in_u64 (z : Z) : Prop := 0 <= z <= ULLONG_MAX.
Definition in_s64 (z : Z) : Prop := LLONG_MIN <= z <= LLONG_MAX.

End CInt.
Import CInt.

(** ** The C library's string-to-integer conversions

    [strtoull], [strtoll] and [strtoul] in base 10 with a null end pointer
    (ISO C 7.22.1.4): leading white space is skipped, one optional sign is
    read, then the longest run of decimal digits.  No digits: the result is
    0.  A magnitude that does not fit saturates; a minus sign negates in the
    return type. *)

Module Libc.

Definition isspace (c : ascii) : bool :=
  let n := Z.of_N (N_of_ascii c) in
  (n =? 32) || ((9 <=? n) && (n <=? 13)).

Definition digit_val (c : ascii) : option Z :=
  let n := Z.of_N (N_of_ascii c) in
  if (48 <=? n) && (n <=? 57) then Some (n - 48) else None.

Fixpoint skip_space (s : string) : string :=
  match s with
  | String c r => if isspace c then skip_space r else s
  | EmptyString => s
  end.

(** The digits read so far as a magnitude, and whether any digit was read. *)
Fixpoint digits (s : string) (acc : Z) (any : bool) : Z * bool :=
  match s with
  | String c r =>
      match digit_val c with
      | Some d => digits r (acc * 10 + d) true
      | None => (acc, any)
      end
  | EmptyString => (acc, any)
  end.

Record scanned := { neg : bool; magnitude : Z; any_digit : bool }.

Definition scan (s : string) : scanned :=
  match skip_space s with
  | String "-"%char r =>
      let (n, any) := digits r 0 false in
      {| neg := true; magnitude := n; any_digit := any |}
  | String "+"%char r =>
      let (n, any) := digits r 0 false in
      {| neg := false; magnitude := n; any_digit := any |}
  | t =>
      let (n, any) := digits t 0 false in
      {| neg := false; magnitude := n; any_digit := any |}
  end.

Definition strtoull (s : string) : Z :=
  let x := scan s in
  if negb (any_digit x) then 0
  else if magnitude x >? ULLONG_MAX then ULLONG_MAX
  else if neg x then to_u64 (- magnitude x)
  else magnitude x.

Definition strtoul (s : string) : Z := strtoull s.

Definition strtoll (s : string) : Z :=
  let x := scan s in
  if negb (any_digit x) then 0
  else if neg x then
    (if magnitude x >? 2 ^ 63 then LLONG_MIN else - magnitude x)
  else
    (if magnitude x >? LLONG_MAX then LLONG_MAX else magnitude x).

End Libc.
Import Libc.

(** [rand]/[srand]: the process-wide generator, as an explicit state.
    [srand seed] is the state after seeding, [rand g] the next draw and the
    next state.  The algorithm is the platform's and is left open. *)
Class PRNG := {
  rng : Type;
  srand : Z -> rng;
  rand : rng -> Z * rng
}.

(** What ISO C promises of [rand]: a value between 0 and [RAND_MAX]. *)
Definition rand_in_range (P : PRNG) : Prop :=
  forall g : rng, 0 <= fst (rand g) <= RAND_MAX.

(** The sample generator of ISO C 7.22.2.2, kept as a concrete instance. *)
Definition iso_c_prng : PRNG := {|
  rng := Z;
  srand := fun seed => seed;
  rand := fun next =>
    let next' := (next * 1103515245 + 12345) mod 2 ^ 64 in
    ((next' / 65536) mod 32768, next')
|}.

(** ** Configuration: the locals of [main] that the argument loop fills *)

Record config := {
  file_path : option string;   (* NULL until --file is seen *)
  mode : option string;        (* NULL until --mode is seen *)
  record_size : Z;             (* size_t *)
  total_bytes : Z;             (* long long *)
  seed : Z                     (* unsigned int *)
}.

Definition init_config : config :=
  {| file_path := None; mode := None; record_size := 0; total_bytes := 0;
     seed := 12345 |}.

Definition set_file_path (c : config) (v : string) : config :=
  {| file_path := Some v; mode := mode c; record_size := record_size c;
     total_bytes := total_bytes c; seed := seed c |}.
Definition set_mode (c : config) (v : string) : config :=
  {| file_path := file_path c; mode := Some v; record_size := record_size c;
     total_bytes := total_bytes c; seed := seed c |}.
Definition set_record_size (c : config) (v : Z) : config :=
  {| file_path := file_path c; mode := mode c; record_size := v;
     total_bytes := total_bytes c; seed := seed c |}.
Definition set_total_bytes (c : config) (v : Z) : config :=
  {| file_path := file_path c; mode := mode c; record_size := record_size c;
     total_bytes := v; seed := seed c |}.
Definition set_seed (c : config) (v : Z) : config :=
  {| file_path := file_path c; mode := mode c; record_size := record_size c;
     total_bytes := total_bytes c; seed := v |}.

(** The argument loop of [main], over [argv[1..argc-1]].  Every branch of
    the source tests [i + 1 < argc] together with the flag's name, so an
    argument in flag position with nothing after it falls to the final
    [else] whatever its text; a flag's value is taken with [argv[++i]] and
    never looked at as a flag.  The result is the filled configuration, or
    the argument the final [else] reports. *)
Fixpoint parse_args (args : list string) (c : config) : config + string :=
  match args with
  | [] => inl c
  | a :: rest =>
      match rest with
      | v :: rest' =>
          if (a =? "--file")%string then
            parse_args rest' (set_file_path c v)
          else if (a =? "--mode")%string then
            parse_args rest' (set_mode c v)
          else if (a =? "--record-size")%string then
            parse_args rest' (set_record_size c (to_u64 (strtoull v)))
          else if (a =? "--total-bytes")%string then
            parse_args rest' (set_total_bytes c (strtoll v))
          else if (a =? "--seed")%string then
            parse_args rest' (set_seed c (to_u32 (strtoul v)))
          else inr a
      | [] => inr a
      end
  end.

(** ** Diagnostics, events and the environment *)

(** One constructor per [fprintf(stderr, ...)] of the source, with the
    values its format consumes ([strerror(errno)] as the error number). *)
Inductive diag :=
| DUnknownArg (arg : string)
| DUsage (prog : string)
| DMissingRequired
| DInvalidMode (m : string)
| DOpenFailed (path : string) (errno : Z)
| DFstatFailed (path : string) (errno : Z)
| DFileSizeNonPositive (file_size : Z)
| DFileTooSmall (file_size total : Z)
| DTotalTooSmall (total rsize : Z)
| DMallocFailed (rsize : Z)
| DPreadFailed (offset rsize errno : Z).

(** The format string of each diagnostic (without its final newline). *)
Definition diag_format (d : diag) : string :=
  match d with
  | DUnknownArg _ => "Unknown or incomplete argument: %s"
  | DUsage _ => "Usage: %s --file <path> --mode <rand|seq>
          --record-size <bytes> --total-bytes <bytes> [--seed <N>]"
  | DMissingRequired => "Error: missing required arguments."
  | DInvalidMode _ => "Error: invalid mode '%s' (use 'rand' or 'seq')"
  | DOpenFailed _ _ => "Error: failed to open '%s': %s"
  | DFstatFailed _ _ => "Error: fstat failed on '%s': %s"
  | DFileSizeNonPositive _ => "Error: file size is non-positive (%jd)"
  | DFileTooSmall _ _ => "Error: file_size=%jd is smaller than total_bytes=%lld"
  | DTotalTooSmall _ _ => "Error: total_bytes=%lld too small for record_size=%zu"
  | DMallocFailed _ => "Error: malloc failed for buf (record_size=%zu)"
  | DPreadFailed _ _ _ => "Error: pread failed (offset=%jd, size=%zu): %s"
  end.

Inductive stream := Stdout | Stderr.

(** What a run does to the outside, in program order. *)
Inductive event :=
| EvPrint (s : stream) (d : diag)
| EvOpen (path : string)
| EvFstat (fd : Z)
| EvSrand (seed : Z)
| EvMalloc (size : Z)
| EvPread (fd count offset : Z)
| EvFree
| EvClose (fd : Z).

(** The answers of the operating system.  [sys_pread] is asked with the
    iteration of the loop that issues the read. *)
Record world := {
  sys_open : string -> Z * Z;              (* path: (fd or -1, errno) *)
  sys_fstat : Z -> Z * Z * Z;              (* fd: (return, st_size, errno) *)
  sys_malloc : Z -> bool;                  (* size: non-NULL? *)
  sys_pread : Z -> Z -> Z -> Z -> Z * Z    (* i, fd, count, offset: (return, errno) *)
}.

Record result := { exit_code : Z; trace : list event }.

Definition eprint (d : diag) : event := EvPrint Stderr d.

(** [usage(prog)] *)
Definition usage (prog : string) : event := eprint (DUsage prog).

(** [return 1] after the events [evs]. *)
Definition fail (evs : list event) : result :=
  {| exit_code := 1; trace := evs |}.

(** The events [evs], then the rest of the run. *)
Definition after (evs : list event) (r : result) : result :=
  {| exit_code := exit_code r; trace := evs ++ trace r |}.

(** ** The plan and the workload loop *)

Section Program.
Context {P : PRNG}.

(** [max_offset = (off_t)(total_bytes - (long long)record_size)] *)
Definition max_offset_of (c : config) : Z :=
  to_s64 (ll_sub (total_bytes c) (to_s64 (record_size c))).

(** [ops = total_bytes / (long long)record_size] *)
Definition ops_of (c : config) : Z :=
  ll_div (total_bytes c) (to_s64 (record_size c)).

(** [(long long)(max_offset / (off_t)record_size) + 1], the expression both
    branches of the loop body compute. *)
Definition block_count_of (max_offset rsize : Z) : Z :=
  ll_add (to_s64 (ll_div max_offset (to_s64 rsize))) 1.

(** The body of the loop up to [pread]: the offset of iteration [i] and the
    generator after it. *)
Definition next_offset (mode_rand : bool) (rsize max_offset i : Z) (g : rng)
  : Z * rng :=
  if mode_rand then
    let block_count := block_count_of max_offset rsize in
    let (r, g') := rand g in
    let block_id := ll_rem r block_count in
    (to_s64 (ll_mul block_id (to_s64 rsize)), g')
  else
    let block_id := ll_rem i (block_count_of max_offset rsize) in
    (to_s64 (ll_mul block_id (to_s64 rsize)), g).

(** [for (i = 0; i < ops; ++i)] from iteration [i] with [n = ops - i]
    iterations left; a failed [pread] leaves the loop and the program. *)
Fixpoint workload (w : world) (fd : Z) (mode_rand : bool)
  (rsize max_offset : Z) (n : nat) (i : Z) (g : rng) : result :=
  match n with
  | O => {| exit_code := 0; trace := [EvFree; EvClose fd] |}
  | S n' =>
      let (offset, g') := next_offset mode_rand rsize max_offset i g in
      let (r, errno) := sys_pread w i fd rsize offset in
      if r <? 0 then
        fail [EvPread fd rsize offset;
              eprint (DPreadFailed offset rsize errno); EvFree; EvClose fd]
      else
        after [EvPread fd rsize offset]
          (workload w fd mode_rand rsize max_offset n' (ll_add i 1) g')
  end.

(** [main] from the planning step on: the file is open and its size known. *)
Definition planned (c : config) (w : world) (mode_rand : bool) (fd : Z)
  : result :=
  let ops := ops_of c in
  if ops <=? 0 then
    fail [eprint (DTotalTooSmall (total_bytes c) (record_size c)); EvClose fd]
  else
    let max_offset := max_offset_of c in
    after [EvSrand (seed c); EvMalloc (record_size c)]
      (if negb (sys_malloc w (record_size c)) then
         fail [eprint (DMallocFailed (record_size c)); EvClose fd]
       else
         workload w fd mode_rand (record_size c) max_offset
           (Z.to_nat ops) 0 (srand (seed c))).

(** [main] from [open] on. *)
Definition opened (c : config) (w : world) (path : string) (mode_rand : bool)
  : result :=
  let (fd, open_errno) := sys_open w path in
  after [EvOpen path]
    (if fd <? 0 then fail [eprint (DOpenFailed path open_errno)]
     else
       let '(st_ret, st_size, st_errno) := sys_fstat w fd in
       after [EvFstat fd]
         (if st_ret <? 0 then
            fail [eprint (DFstatFailed path st_errno); EvClose fd]
          else
            let file_size := st_size in
            if file_size <=? 0 then
              fail [eprint (DFileSizeNonPositive file_size); EvClose fd]
            else if file_size <? total_bytes c then
              fail [eprint (DFileTooSmall file_size (total_bytes c));
                    EvClose fd]
            else planned c w mode_rand fd)).

(** [main] after the argument loop. *)
Definition run (prog : string) (c : config) (w : world) : result :=
  match file_path c, mode c with
  | Some path, Some m =>
      if (record_size c =? 0) || (total_bytes c <=? 0) then
        fail [eprint DMissingRequired; usage prog]
      else
        let mode_rand := (m =? "rand")%string in
        let mode_seq := (m =? "seq")%string in
        if negb (mode_rand || mode_seq) then
          fail [eprint (DInvalidMode m); usage prog]
        else opened c w path mode_rand
  | _, _ => fail [eprint DMissingRequired; usage prog]
  end.

(** [main(argc, argv)] with [argv = prog :: args]. *)
Definition main (prog : string) (args : list string) (w : world) : result :=
  match parse_args args init_config with
  | inr bad => fail [eprint (DUnknownArg bad); usage prog]
  | inl c => run prog c w
  end.

End Program.

(** ** Reading a trace *)

Definition preads (t : list event) : list (Z * Z) :=
  flat_map (fun e => match e with
                     | EvPread _ count offset => [(count, offset)]
                     | _ => []
                     end) t.

Definition pread_offsets (t : list event) : list Z := map snd (preads t).

Definition stderr_of (t : list event) : list diag :=
  flat_map (fun e => match e with EvPrint Stderr d => [d] | _ => [] end) t.

Definition stdout_of (t : list event) : list diag :=
  flat_map (fun e => match e with EvPrint Stdout d => [d] | _ => [] end) t.

Definition opens (t : list event) : list string :=
  flat_map (fun e => match e with EvOpen p => [p] | _ => [] end) t.

Definition srands (t : list event) : list Z :=
  flat_map (fun e => match e with EvSrand s => [s] | _ => [] end) t.

(** A world for examples: every file opens as descriptor 3 and has [size]
    bytes, allocation succeeds, every read returns [count]. *)
Definition plain_world (size : Z) : world :=
  {| sys_open := fun _ => (3, 0);
     sys_fstat := fun _ => (0, size, 0);
     sys_malloc := fun _ => true;
     sys_pread := fun _ _ count _ => (count, 0) |}.

(** ** Vocabulary of the properties *)

(** The ranges the C types give the parsed numbers. *)
Definition config_wf (c : config) : Prop :=
  in_u64 (record_size c) /\ in_s64 (total_bytes c) /\ 0 <= seed c < 2 ^ 32.

(** The block-aligned offset selected by the number [x] (the loop counter
    or a draw) in a working set of [total] bytes read [rsize] at a time. *)
Definition offset_at (rsize total x : Z) : Z :=
  (x mod ((total - rsize) / rsize + 1)) * rsize.

(** A plan the checks of [main] let through: a positive record size that
    fits in the working set. *)
Definition plan_ok (rsize total : Z) : Prop :=
  0 < rsize /\ rsize <= total /\ total <= LLONG_MAX.

(** The five flags of the command line. *)
Definition is_flag (a : string) : bool :=
  ((a =? "--file") || (a =? "--mode") || (a =? "--record-size")
   || (a =? "--total-bytes") || (a =? "--seed"))%string.

(** One step of the loop on a flag and its value. *)
Definition step_flag (a v : string) (c : config) : option config :=
  if (a =? "--file")%string then Some (set_file_path c v)
  else if (a =? "--mode")%string then Some (set_mode c v)
  else if (a =? "--record-size")%string then
    Some (set_record_size c (to_u64 (strtoull v)))
  else if (a =? "--total-bytes")%string then
    Some (set_total_bytes c (strtoll v))
  else if (a =? "--seed")%string then Some (set_seed c (to_u32 (strtoul v)))
  else None.

(** [rejected args a]: reading [args] from the left, a flag and its value at
    a time, [a] is the first argument in flag position that is not a flag
    or is a flag with no argument after it. *)
Inductive rejected : list string -> string -> Prop :=
| rejected_unknown (a : string) (rest : list string) :
    is_flag a = false -> rejected (a :: rest) a
| rejected_last (a : string) :
    is_flag a = true -> rejected [a] a
| rejected_later (a v : string) (rest : list string) (b : string) :
    is_flag a = true -> rejected rest b -> rejected (a :: v :: rest) b.

Section Plan.
Context {P : PRNG}.

(** The offsets the loop is going to issue from iteration [i] on if no read
    fails: the loop body iterated without the reads. *)
Fixpoint planned_offsets (mode_rand : bool) (rsize max_offset : Z)
  (n : nat) (i : Z) (g : rng) : list Z :=
  match n with
  | O => []
  | S n' =>
      let (offset, g') := next_offset mode_rand rsize max_offset i g in
      offset :: planned_offsets mode_rand rsize max_offset n' (ll_add i 1) g'
  end.

(** The offsets planned for a configuration. *)
Definition plan_offsets (c : config) (mode_rand : bool) : list Z :=
  planned_offsets mode_rand (record_size c) (max_offset_of c)
    (Z.to_nat (ops_of c)) 0 (srand (seed c)).

(** Every check of [main] passes and every planned read succeeds. *)
Definition run_succeeds (c : config) (w : world) : Prop :=
  exists path m,
    file_path c = Some path /\ mode c = Some m /\
    record_size c <> 0 /\ 0 < total_bytes c /\
    (m = "rand"%string \/ m = "seq"%string) /\
    let fd := fst (sys_open w path) in
    0 <= fd /\
    0 <= fst (fst (sys_fstat w fd)) /\
    0 < snd (fst (sys_fstat w fd)) /\
    total_bytes c <= snd (fst (sys_fstat w fd)) /\
    0 < ops_of c /\
    sys_malloc w (record_size c) = true /\
    forall (k : nat) (off : Z),
      nth_error (plan_offsets c (m =? "rand")%string) k = Some off ->
      0 <= fst (sys_pread w (Z.of_nat k) fd (record_size c) off).

(** The arguments pass the checks [main] makes before it opens the file. *)
Definition valid_args (c : config) (path m : string) : Prop :=
  file_path c = Some path /\ mode c = Some m /\
  record_size c <> 0 /\ 0 < total_bytes c /\
  (m = "rand"%string \/ m = "seq"%string).

(** The ways through [main] after the argument loop, one per [return] of
    the source, each with the tests that lead to it. *)
Inductive exit_path (prog : string) (c : config) (w : world)
  : result -> Prop :=
| path_missing :
    file_path c = None \/ mode c = None \/ record_size c = 0
    \/ total_bytes c <= 0 ->
    exit_path prog c w (fail [eprint DMissingRequired; usage prog])
| path_mode (path m : string) :
    file_path c = Some path -> mode c = Some m ->
    record_size c <> 0 -> 0 < total_bytes c ->
    m <> "rand"%string -> m <> "seq"%string ->
    exit_path prog c w (fail [eprint (DInvalidMode m); usage prog])
| path_open (path m : string) (fd e : Z) :
    valid_args c path m -> sys_open w path = (fd, e) -> fd < 0 ->
    exit_path prog c w (fail [EvOpen path; eprint (DOpenFailed path e)])
| path_fstat (path m : string) (fd e ret size se : Z) :
    valid_args c path m -> sys_open w path = (fd, e) -> 0 <= fd ->
    sys_fstat w fd = (ret, size, se) -> ret < 0 ->
    exit_path prog c w
      (fail [EvOpen path; EvFstat fd; eprint (DFstatFailed path se);
             EvClose fd])
| path_empty (path m : string) (fd e ret size se : Z) :
    valid_args c path m -> sys_open w path = (fd, e) -> 0 <= fd ->
    sys_fstat w fd = (ret, size, se) -> 0 <= ret -> size <= 0 ->
    exit_path prog c w
      (fail [EvOpen path; EvFstat fd; eprint (DFileSizeNonPositive size);
             EvClose fd])
| path_small (path m : string) (fd e ret size se : Z) :
    valid_args c path m -> sys_open w path = (fd, e) -> 0 <= fd ->
    sys_fstat w fd = (ret, size, se) -> 0 <= ret -> 0 < size ->
    size < total_bytes c ->
    exit_path prog c w
      (fail [EvOpen path; EvFstat fd;
             eprint (DFileTooSmall size (total_bytes c)); EvClose fd])
| path_degenerate (path m : string) (fd e ret size se : Z) :
    valid_args c path m -> sys_open w path = (fd, e) -> 0 <= fd ->
    sys_fstat w fd = (ret, size, se) -> 0 <= ret -> 0 < size ->
    total_bytes c <= size -> ops_of c <= 0 ->
    exit_path prog c w
      (fail [EvOpen path; EvFstat fd;
             eprint (DTotalTooSmall (total_bytes c) (record_size c));
             EvClose fd])
| path_malloc (path m : string) (fd e ret size se : Z) :
    valid_args c path m -> sys_open w path = (fd, e) -> 0 <= fd ->
    sys_fstat w fd = (ret, size, se) -> 0 <= ret -> 0 < size ->
    total_bytes c <= size -> 0 < ops_of c ->
    sys_malloc w (record_size c) = false ->
    exit_path prog c w
      (fail [EvOpen path; EvFstat fd; EvSrand (seed c);
             EvMalloc (record_size c);
             eprint (DMallocFailed (record_size c)); EvClose fd])
| path_loop (path m : string) (fd e ret size se : Z) :
    valid_args c path m -> sys_open w path = (fd, e) -> 0 <= fd ->
    sys_fstat w fd = (ret, size, se) -> 0 <= ret -> 0 < size ->
    total_bytes c <= size -> 0 < ops_of c ->
    sys_malloc w (record_size c) = true ->
    exit_path prog c w
      (after [EvOpen path; EvFstat fd; EvSrand (seed c);
              EvMalloc (record_size c)]
         (workload w fd (m =? "rand")%string (record_size c)
            (max_offset_of c) (Z.to_nat (ops_of c)) 0 (srand (seed c)))).

End Plan.

(** ** Further vocabulary: the command line, the trace, the generator *)

(** A command line made of flags, each followed by one argument. *)
Inductive flag_pairs : list string -> Prop :=
| flag_pairs_nil : flag_pairs []
| flag_pairs_cons (a v : string) (rest : list string) :
    is_flag a = true -> flag_pairs rest -> flag_pairs (a :: v :: rest).

(** The argument that follows the last occurrence of the flag [f] in flag
    position, reading the command line a flag and its value at a time. *)
Fixpoint last_value (f : string) (args : list string) : option string :=
  match args with
  | a :: rest =>
      match rest with
      | v :: rest' =>
          match last_value f rest' with
          | Some x => Some x
          | None => if (a =? f)%string then Some v else None
          end
      | [] => None
      end
  | [] => None
  end.

Definition closes (t : list event) : list Z :=
  flat_map (fun e => match e with EvClose fd => [fd] | _ => [] end) t.

Definition frees (t : list event) : list unit :=
  flat_map (fun e => match e with EvFree => [tt] | _ => [] end) t.

Definition mallocs (t : list event) : list Z :=
  flat_map (fun e => match e with EvMalloc n => [n] | _ => [] end) t.

(** An event of the loop body: a read of [rsize] bytes on [fd], or a line
    on the error stream. *)
Definition read_or_print (fd rsize : Z) (e : event) : Prop :=
  match e with
  | EvPread f count _ => f = fd /\ count = rsize
  | EvPrint Stderr _ => True
  | _ => False
  end.

(** The diagnostics of the argument checks, after which [usage] is called. *)
Definition argument_diag (d : diag) : Prop :=
  match d with
  | DUnknownArg _ | DMissingRequired | DInvalidMode _ => True
  | _ => False
  end.

(** The checks of [main] up to the computation of the operation count
    pass: valid arguments, the file opens, its size is obtained, positive
    and at least [total_bytes], and the operation count is positive. *)
Definition planning_passes (c : config) (w : world) : Prop :=
  exists path m,
    valid_args c path m /\
    let fd := fst (sys_open w path) in
    0 <= fd /\
    0 <= fst (fst (sys_fstat w fd)) /\
    0 < snd (fst (sys_fstat w fd)) /\
    total_bytes c <= snd (fst (sys_fstat w fd)) /\
    0 < ops_of c.

(** Two environments that differ at most in the byte counts of the reads
    that succeed: same answers to [open], [fstat] and [malloc], and every
    [pread] fails in both, with the same error number, or in neither. *)
Definition same_up_to_read_counts (w w' : world) : Prop :=
  (forall p, sys_open w p = sys_open w' p) /\
  (forall fd, sys_fstat w fd = sys_fstat w' fd) /\
  (forall n, sys_malloc w n = sys_malloc w' n) /\
  (forall i fd count off,
     (fst (sys_pread w i fd count off) <? 0) =
     (fst (sys_pread w' i fd count off) <? 0) /\
     (fst (sys_pread w i fd count off) < 0 ->
      snd (sys_pread w i fd count off) = snd (sys_pread w' i fd count off))).

(** A world in which the read of iteration [k] fails with error number
    [errno] and everything else succeeds. *)
Definition read_error_world (size k errno : Z) : world :=
  {| sys_open := fun _ => (3, 0);
     sys_fstat := fun _ => (0, size, 0);
     sys_malloc := fun _ => true;
     sys_pread := fun i _ count _ =>
                    if i =? k then (-1, errno) else (count, 0) |}.

(** A world in which [open] fails with error number [errno]. *)
Definition open_error_world (errno : Z) : world :=
  {| sys_open := fun _ => (-1, errno);
     sys_fstat := fun _ => (0, 0, 0);
     sys_malloc := fun _ => true;
     sys_pread := fun _ _ count _ => (count, 0) |}.

(** A world in which [fstat] fails with error number [errno]. *)
Definition fstat_error_world (errno : Z) : world :=
  {| sys_open := fun _ => (3, 0);
     sys_fstat := fun _ => (-1, 0, errno);
     sys_malloc := fun _ => true;
     sys_pread := fun _ _ count _ => (count, 0) |}.

(** A world with a file of [size] bytes in which [malloc] fails. *)
Definition no_memory_world (size : Z) : world :=
  {| sys_open := fun _ => (3, 0);
     sys_fstat := fun _ => (0, size, 0);
     sys_malloc := fun _ => false;
     sys_pread := fun _ _ count _ => (count, 0) |}.

(** A world with a file of [size] bytes in which every read is short: it
    returns half of the bytes asked for. *)
Definition short_read_world (size : Z) : world :=
  {| sys_open := fun _ => (3, 0);
     sys_fstat := fun _ => (0, size, 0);
     sys_malloc := fun _ => true;
     sys_pread := fun _ _ count _ => (count / 2, 0) |}.

Section Draws.
Context {P : PRNG}.

(** The next [n] values of [rand] from the generator state [g]. *)
Fixpoint draws (n : nat) (g : rng) : list Z :=
  match n with
  | O => []
  | S n' => let (r, g') := rand g in r :: draws n' g'
  end.

End Draws.

(** * Properties *)

(** ** Machine integers *)

Lemma to_s64_small (z : Z) : in_s64 z -> to_s64 z = z.
Proof.
  unfold in_s64, to_s64, LLONG_MIN, LLONG_MAX. intros H.
  rewrite Z.mod_small; lia.
Qed.

Lemma to_s64_high (z : Z) : 2 ^ 63 <= z <= ULLONG_MAX -> to_s64 z = z - 2 ^ 64.
Proof.
  unfold to_s64, ULLONG_MAX. intros H.
  replace (z + 2 ^ 63) with ((z - 2 ^ 63) + 1 * 2 ^ 64) by lia.
  rewrite Z.mod_add by lia. rewrite Z.mod_small; lia.
Qed.

Lemma to_u64_range (z : Z) : in_u64 (to_u64 z).
Proof.
  unfold in_u64, to_u64, ULLONG_MAX.
  pose proof (Z.mod_pos_bound z (2 ^ 64)). lia.
Qed.

(** ** String-to-integer conversions *)

Lemma digit_val_range (c : ascii) (d : Z) :
  digit_val c = Some d -> 0 <= d <= 9.
Proof.
  unfold digit_val.
  destruct ((48 <=? Z.of_N (N_of_ascii c)) && (Z.of_N (N_of_ascii c) <=? 57))
    eqn:E; [|discriminate].
  intros [= <-]. apply andb_true_iff in E as [E1 E2]. lia.
Qed.

Lemma digits_nonneg (s : string) :
  forall acc any, 0 <= acc -> 0 <= fst (digits s acc any).
Proof.
  induction s as [|c r IH]; intros acc any Hacc; simpl; [exact Hacc|].
  destruct (digit_val c) as [d|] eqn:E; simpl; [|exact Hacc].
  apply IH. pose proof (digit_val_range _ _ E). lia.
Qed.

Lemma scan_magnitude_nonneg (s : string) : 0 <= magnitude (scan s).
Proof.
  unfold scan.
  assert (H : forall t, 0 <= fst (digits t 0 false))
    by (intros t; apply digits_nonneg; lia).
  destruct (skip_space s) as [|c r].
  - simpl. lia.
  - pose proof (H r) as Hr. pose proof (H (String c r)) as Hc.
    destruct c as [[] [] [] [] [] [] [] []];
      try (destruct (digits (String _ r) 0 false); exact Hc);
      destruct (digits r 0 false); exact Hr.
Qed.

Lemma strtoll_range (s : string) : in_s64 (strtoll s).
Proof.
  unfold strtoll, in_s64, LLONG_MIN, LLONG_MAX.
  pose proof (scan_magnitude_nonneg s) as Hm.
  destruct (any_digit (scan s)); cbn [negb]; [|lia].
  destruct (neg (scan s)).
  - rewrite Z.gtb_ltb. destruct (2 ^ 63 <? magnitude (scan s)) eqn:E; lia.
  - rewrite Z.gtb_ltb. destruct (2 ^ 63 - 1 <? magnitude (scan s)) eqn:E; lia.
Qed.

Lemma strtoull_range (s : string) : in_u64 (strtoull s).
Proof.
  unfold strtoull, in_u64, ULLONG_MAX.
  pose proof (scan_magnitude_nonneg s) as Hm.
  destruct (any_digit (scan s)); cbn [negb]; [|lia].
  rewrite Z.gtb_ltb.
  destruct (2 ^ 64 - 1 <? magnitude (scan s)) eqn:E; [lia|].
  destruct (neg (scan s)); [|lia].
  pose proof (to_u64_range (- magnitude (scan s))) as H.
  unfold in_u64, ULLONG_MAX in H. exact H.
Qed.

(** [strtoull] yields zero exactly on text without digits where digits are
    expected and on text whose digits spell zero. *)
Lemma strtoull_zero_iff (s : string) :
  strtoull s = 0 <-> any_digit (scan s) = false \/ magnitude (scan s) = 0.
Proof.
  unfold strtoull, ULLONG_MAX.
  pose proof (scan_magnitude_nonneg s) as Hm.
  destruct (any_digit (scan s)); cbn [negb]; [|tauto].
  rewrite Z.gtb_ltb.
  destruct (2 ^ 64 - 1 <? magnitude (scan s)) eqn:E.
  - split; [lia|]. intros [H|H]; [discriminate|lia].
  - destruct (neg (scan s)).
    + unfold to_u64. split.
      * intros H. right.
        destruct (Z.eq_dec (magnitude (scan s)) 0) as [|Hn]; [assumption|].
        replace (- magnitude (scan s))
          with ((2 ^ 64 - magnitude (scan s)) + (-1) * 2 ^ 64) in H by lia.
        rewrite Z.mod_add in H by lia. rewrite Z.mod_small in H; lia.
      * intros [H|H]; [discriminate|]. rewrite H. reflexivity.
    + split; [auto|]. intros [H|H]; [discriminate|exact H].
Qed.

(** ** The argument loop *)

Lemma list_pair_ind (A : Type) (Q : list A -> Prop) :
  Q [] -> (forall a, Q [a]) ->
  (forall a v l, Q l -> Q (a :: v :: l)) ->
  forall l, Q l.
Proof.
  intros H0 H1 H2 l.
  assert (H : Q l /\ forall a, Q (a :: l)).
  { induction l as [|x l [IH1 IH2]]; split; auto. }
  apply H.
Qed.

Lemma parse_args_step (a v : string) (rest : list string) (c : config) :
  parse_args (a :: v :: rest) c =
  match step_flag a v c with
  | Some c' => parse_args rest c'
  | None => inr a
  end.
Proof.
  unfold step_flag. simpl.
  repeat match goal with |- context [if ?b then _ else _] => destruct b end;
    reflexivity.
Qed.

Lemma step_flag_is_flag (a v : string) (c : config) :
  is_flag a = true <-> exists c', step_flag a v c = Some c'.
Proof.
  unfold is_flag, step_flag.
  destruct (a =? "--file")%string; [split; eauto|].
  destruct (a =? "--mode")%string; [split; eauto|].
  destruct (a =? "--record-size")%string; [split; eauto|].
  destruct (a =? "--total-bytes")%string; [split; eauto|].
  destruct (a =? "--seed")%string; [split; eauto|].
  simpl. split; [discriminate|]. intros [c' H]. discriminate.
Qed.

Lemma step_flag_wf (a v : string) (c c' : config) :
  config_wf c -> step_flag a v c = Some c' -> config_wf c'.
Proof.
  unfold step_flag, config_wf. intros (Hr & Ht & Hs).
  repeat match goal with
         | |- context [if ?b then _ else _] => destruct b
         end; intros [= <-]; simpl; repeat split;
    try apply Hr; try apply Ht; try apply Hs;
    try apply (to_u64_range (strtoull v));
    try apply (strtoll_range v);
    unfold to_u32; pose proof (Z.mod_pos_bound (strtoul v) (2 ^ 32)); lia.
Qed.

Lemma init_config_wf : config_wf init_config.
Proof.
  unfold config_wf, in_u64, in_s64, ULLONG_MAX, LLONG_MIN, LLONG_MAX; simpl.
  lia.
Qed.

Lemma parse_args_wf (args : list string) :
  forall c0 c, config_wf c0 -> parse_args args c0 = inl c -> config_wf c.
Proof.
  induction args as [| a | a v rest IH] using list_pair_ind; intros c0 c Hwf.
  - intros [= <-]. exact Hwf.
  - discriminate.
  - rewrite parse_args_step. destruct (step_flag a v c0) as [c'|] eqn:E;
      [|discriminate].
    apply IH. eapply step_flag_wf; eauto.
Qed.

(** Arguments added after a command line that parses are read from the
    configuration it produced. *)
Lemma parse_args_app (args more : list string) :
  forall c0 c, parse_args args c0 = inl c ->
  parse_args (args ++ more) c0 = parse_args more c.
Proof.
  induction args as [| a | a v rest IH] using list_pair_ind; intros c0 c.
  - intros [= <-]. reflexivity.
  - discriminate.
  - change ((a :: v :: rest) ++ more) with (a :: v :: (rest ++ more)).
    rewrite !parse_args_step. destruct (step_flag a v c0) as [c'|];
      [|discriminate].
    apply IH.
Qed.

(** The loop reports exactly the argument [rejected] singles out. *)
Lemma parse_args_rejected (args : list string) :
  forall c0 b, parse_args args c0 = inr b <-> rejected args b.
Proof.
  induction args as [| a | a v rest IH] using list_pair_ind; intros c0 b.
  - split; [discriminate|]. intros H; inversion H.
  - simpl. split.
    + intros [= <-]. destruct (is_flag a) eqn:E;
        [apply rejected_last | apply rejected_unknown]; exact E.
    + intros H; inversion H; subst; reflexivity.
  - rewrite parse_args_step. destruct (step_flag a v c0) as [c'|] eqn:E.
    + assert (Hf : is_flag a = true)
        by (apply (step_flag_is_flag a v c0); eauto).
      rewrite IH. split.
      * intros H. apply rejected_later; assumption.
      * intros H. inversion H; subst; [congruence | assumption].
    + assert (Hf : is_flag a = false).
      { destruct (is_flag a) eqn:F; [|reflexivity].
        apply (step_flag_is_flag a v c0) in F as [c' F]. congruence. }
      split.
      * intros [= <-]. apply rejected_unknown; exact Hf.
      * intros H. inversion H; subst; [reflexivity | congruence].
Qed.

(** ** The plan *)

Lemma quot_neg_divisor (a b : Z) : 0 <= a -> b < 0 -> - a <= Z.quot a b <= 0.
Proof.
  intros Ha Hb.
  rewrite <- (Z.opp_involutive b), Z.quot_opp_r by lia.
  rewrite Z.quot_div_nonneg by lia.
  pose proof (Z.div_pos a (- b) Ha ltac:(lia)).
  assert (a / - b <= a) by (apply Z.div_le_upper_bound; nia).
  lia.
Qed.

(** What the checks of [main] up to [ops <= 0] establish. *)
Lemma plan_facts (c : config) :
  config_wf c -> record_size c <> 0 -> 0 < total_bytes c -> 0 < ops_of c ->
  plan_ok (record_size c) (total_bytes c) /\
  to_s64 (record_size c) = record_size c /\
  ops_of c = total_bytes c / record_size c /\
  max_offset_of c = total_bytes c - record_size c.
Proof.
  unfold config_wf, ops_of, max_offset_of, ll_div, ll_sub, plan_ok.
  intros (Hr & Ht & _) Hnz Htb Hops.
  unfold in_u64, in_s64, ULLONG_MAX, LLONG_MIN, LLONG_MAX in *.
  destruct (Z_lt_le_dec (record_size c) (2 ^ 63)) as [Hlo|Hhi].
  - assert (Hs : to_s64 (record_size c) = record_size c)
      by (apply to_s64_small; unfold in_s64, LLONG_MIN, LLONG_MAX; lia).
    rewrite Hs in *.
    rewrite Z.quot_div_nonneg in * by lia.
    assert (Hq : 0 <= total_bytes c / record_size c <= total_bytes c).
    { split; [apply Z.div_pos; lia|].
      apply Z.div_le_upper_bound; nia. }
    rewrite to_s64_small in Hops
      by (unfold in_s64, LLONG_MIN, LLONG_MAX; lia).
    assert (Hle : record_size c <= total_bytes c).
    { destruct (Z_lt_le_dec (total_bytes c) (record_size c)) as [Hlt|]; [|lia].
      rewrite Z.div_small in Hops; lia. }
    rewrite (to_s64_small (total_bytes c / record_size c))
      by (unfold in_s64, LLONG_MIN, LLONG_MAX; lia).
    rewrite !(to_s64_small (total_bytes c - record_size c))
      by (unfold in_s64, LLONG_MIN, LLONG_MAX; lia).
    repeat split; lia.
  - exfalso.
    rewrite (to_s64_high (record_size c)) in Hops by (unfold ULLONG_MAX; lia).
    pose proof (quot_neg_divisor (total_bytes c) (record_size c - 2 ^ 64)
                  ltac:(lia) ltac:(lia)) as Hq.
    rewrite to_s64_small in Hops
      by (unfold in_s64, LLONG_MIN, LLONG_MAX; lia).
    lia.
Qed.

Lemma div_sub_one (total rsize : Z) :
  0 < rsize -> (total - rsize) / rsize + 1 = total / rsize.
Proof.
  intros H. replace (total - rsize) with (total + (-1) * rsize) by lia.
  rewrite Z.div_add by lia. lia.
Qed.

Lemma block_count_of_ok (rsize total : Z) :
  plan_ok rsize total ->
  block_count_of (total - rsize) rsize = (total - rsize) / rsize + 1 /\
  0 < (total - rsize) / rsize + 1 <= total.
Proof.
  unfold plan_ok, block_count_of, ll_add, ll_div, LLONG_MAX.
  intros (Hr & Hle & Hmax).
  assert (Hq : 0 <= (total - rsize) / rsize <= total - rsize).
  { split; [apply Z.div_pos; lia|]. apply Z.div_le_upper_bound; nia. }
  rewrite (to_s64_small rsize) by (unfold in_s64, LLONG_MIN, LLONG_MAX; lia).
  rewrite Z.quot_div_nonneg by lia.
  rewrite !(to_s64_small ((total - rsize) / rsize))
    by (unfold in_s64, LLONG_MIN, LLONG_MAX; lia).
  rewrite to_s64_small by (unfold in_s64, LLONG_MIN, LLONG_MAX; lia).
  split; lia.
Qed.

Lemma offset_at_bounds (rsize total x : Z) :
  plan_ok rsize total ->
  0 <= offset_at rsize total x <= total - rsize /\
  offset_at rsize total x mod rsize = 0.
Proof.
  intros Hp. pose proof (block_count_of_ok _ _ Hp) as [_ Hbc].
  destruct Hp as (Hr & Hle & Hmax). unfold offset_at.
  set (bc := (total - rsize) / rsize + 1) in *.
  pose proof (Z.mod_pos_bound x bc ltac:(lia)) as Hm.
  pose proof (Z.mul_div_le (total - rsize) rsize Hr) as Hd.
  split; [|apply Z.mod_mul; lia].
  split; [nia|].
  apply Z.le_trans with (rsize * ((total - rsize) / rsize)); [|exact Hd].
  subst bc. nia.
Qed.

Section LoopFacts.
Context {P : PRNG}.

(** The loop body computes [offset_at] of the number it selects with. *)
Lemma next_offset_ok (mode_rand : bool) (rsize total i : Z) (g : rng) :
  plan_ok rsize total ->
  0 <= (if mode_rand then fst (rand g) else i) ->
  next_offset mode_rand rsize (total - rsize) i g =
  (offset_at rsize total (if mode_rand then fst (rand g) else i),
   if mode_rand then snd (rand g) else g).
Proof.
  intros Hp Hx. pose proof (block_count_of_ok _ _ Hp) as [Hbc Hpos].
  unfold next_offset. rewrite Hbc.
  assert (Hmul : forall x, 0 <= x ->
            to_s64 (ll_mul (ll_rem x ((total - rsize) / rsize + 1))
                      (to_s64 rsize)) = offset_at rsize total x).
  { intros x Hx0. pose proof (offset_at_bounds rsize total x Hp) as [Hb _].
    destruct Hp as (Hr & Hle & Hmax). unfold LLONG_MAX in Hmax.
    unfold ll_mul, ll_rem. rewrite Z.rem_mod_nonneg by lia.
    rewrite (to_s64_small rsize)
      by (unfold in_s64, LLONG_MIN, LLONG_MAX; lia).
    fold (offset_at rsize total x).
    rewrite !(to_s64_small (offset_at rsize total x))
      by (unfold in_s64, LLONG_MIN, LLONG_MAX; lia).
    reflexivity. }
  destruct mode_rand.
  - destruct (rand g) as [r g'] eqn:E. simpl in *. rewrite Hmul by lia.
    reflexivity.
  - rewrite Hmul by lia. reflexivity.
Qed.

End LoopFacts.

(** ** The ways through [main] *)

Section Paths.
Context {P : PRNG}.

Lemma run_exit_path (prog : string) (c : config) (w : world) :
  exit_path prog c w (run prog c w).
Proof.
  unfold run.
  destruct (file_path c) as [path|] eqn:Hf;
    [|apply path_missing; auto].
  destruct (mode c) as [m|] eqn:Hm; [|apply path_missing; auto].
  destruct (record_size c =? 0) eqn:Hr; cbn [orb];
    [apply path_missing; lia|].
  destruct (total_bytes c <=? 0) eqn:Ht; [apply path_missing; lia|].
  destruct (m =? "rand")%string eqn:Hrand;
    [|destruct (m =? "seq")%string eqn:Hseq]; cbn [orb negb].
  3:{ apply String.eqb_neq in Hrand, Hseq.
      eapply path_mode; eauto; lia. }
  all: assert (Hv : valid_args c path m)
    by (unfold valid_args; repeat split; auto; try lia;
        try (left; apply String.eqb_eq; assumption);
        try (right; apply String.eqb_eq; assumption)).
  all: try rewrite <- Hrand.
  all: unfold opened; destruct (sys_open w path) as [fd e] eqn:Ho.
  all: destruct (fd <? 0) eqn:Hfd;
    [eapply path_open; eauto; lia|].
  all: destruct (sys_fstat w fd) as [[ret size] se] eqn:Hs.
  all: destruct (ret <? 0) eqn:Hret;
    [eapply path_fstat; eauto; lia|].
  all: destruct (size <=? 0) eqn:Hsz;
    [eapply path_empty; eauto; lia|].
  all: destruct (size <? total_bytes c) eqn:Hsm;
    [eapply path_small; eauto; lia|].
  all: unfold planned; destruct (ops_of c <=? 0) eqn:Hops;
    [eapply path_degenerate; eauto; lia|].
  all: destruct (sys_malloc w (record_size c)) eqn:Hma; cbn [negb];
    [eapply path_loop | eapply path_malloc]; eauto; lia.
Qed.

Lemma main_exit_path (prog : string) (args : list string) (w : world)
  (c : config) :
  parse_args args init_config = inl c ->
  exit_path prog c w (main prog args w).
Proof.
  intros H. unfold main. rewrite H. apply run_exit_path.
Qed.

End Paths.

(** ** Reading traces *)

Lemma preads_app (t u : list event) : preads (t ++ u) = preads t ++ preads u.
Proof. apply flat_map_app. Qed.

Lemma stderr_of_app (t u : list event) :
  stderr_of (t ++ u) = stderr_of t ++ stderr_of u.
Proof. apply flat_map_app. Qed.

Lemma stdout_of_app (t u : list event) :
  stdout_of (t ++ u) = stdout_of t ++ stdout_of u.
Proof. apply flat_map_app. Qed.

Lemma srands_app (t u : list event) : srands (t ++ u) = srands t ++ srands u.
Proof. apply flat_map_app. Qed.

(** ** The workload loop *)

Section Loop.
Context {P : PRNG}.
Variables (w : world) (fd : Z) (mode_rand : bool) (rsize max_offset : Z).

Let loop := workload w fd mode_rand rsize max_offset.
Let plan := planned_offsets mode_rand rsize max_offset.

Lemma workload_exit (n : nat) :
  forall i g, exit_code (loop n i g) = 0 \/ exit_code (loop n i g) = 1.
Proof.
  subst loop. induction n as [|n IH]; intros i g; simpl; [auto|].
  destruct (next_offset mode_rand rsize max_offset i g) as [off g'].
  destruct (sys_pread w i fd rsize off) as [r e].
  destruct (r <? 0); simpl; [auto | apply IH].
Qed.

(** The reads a run of the loop issues are the first [k] planned ones, each
    of [rsize] bytes; all of them when the loop runs to its end. *)
Lemma workload_preads (n : nat) :
  forall i g, exists k : nat,
    (k <= n)%nat /\
    preads (trace (loop n i g)) =
      map (fun off => (rsize, off)) (firstn k (plan n i g)) /\
    (exit_code (loop n i g) = 0 -> k = n).
Proof.
  subst loop plan. induction n as [|n IH]; intros i g; simpl.
  - exists 0%nat. auto.
  - destruct (next_offset mode_rand rsize max_offset i g) as [off g'].
    destruct (sys_pread w i fd rsize off) as [r e].
    destruct (r <? 0); simpl.
    + exists 1%nat. repeat split; [lia | discriminate].
    + destruct (IH (ll_add i 1) g') as (k & Hk & Hp & He).
      exists (S k). repeat split; [lia | simpl; rewrite Hp; reflexivity |].
      intros H. f_equal. auto.
Qed.

(** The loop prints to the error stream exactly when it fails, and does
    nothing but read, print the read error, free and close. *)
Lemma workload_streams (n : nat) :
  forall i g,
    stdout_of (trace (loop n i g)) = [] /\
    srands (trace (loop n i g)) = [] /\
    opens (trace (loop n i g)) = [] /\
    (exit_code (loop n i g) = 0 -> stderr_of (trace (loop n i g)) = []) /\
    (exit_code (loop n i g) = 1 ->
     exists off e,
       stderr_of (trace (loop n i g)) = [DPreadFailed off rsize e]).
Proof.
  subst loop. induction n as [|n IH]; intros i g; simpl.
  - repeat split; auto. discriminate.
  - destruct (next_offset mode_rand rsize max_offset i g) as [off g'].
    destruct (sys_pread w i fd rsize off) as [r e].
    destruct (r <? 0); simpl.
    + repeat split; auto; [discriminate | eauto].
    + apply IH.
Qed.

(** The loop runs to its end exactly when the system lets every planned
    read succeed. *)
Lemma workload_exit_zero (n : nat) :
  forall i g,
    0 <= i -> i + Z.of_nat n <= LLONG_MAX ->
    (exit_code (loop n i g) = 0 <->
     forall (k : nat) (off : Z),
       nth_error (plan n i g) k = Some off ->
       0 <= fst (sys_pread w (i + Z.of_nat k) fd rsize off)).
Proof.
  subst loop plan. induction n as [|n IH]; intros i g Hi Hn; simpl.
  - split; [|reflexivity]. intros _ [|k] off; discriminate.
  - destruct (next_offset mode_rand rsize max_offset i g) as [off g'].
    assert (Hs : ll_add i 1 = i + 1).
    { unfold ll_add. apply to_s64_small.
      unfold in_s64, LLONG_MIN, LLONG_MAX in *. lia. }
    destruct (sys_pread w i fd rsize off) as [r e] eqn:Hr.
    destruct (r <? 0) eqn:Hneg; simpl.
    + split; [discriminate|]. intros H.
      specialize (H 0%nat off eq_refl). rewrite Z.add_0_r, Hr in H.
      simpl in H. lia.
    + rewrite IH, Hs by (rewrite ?Hs; lia). split.
      * intros H [|k] o Hk; simpl in Hk.
        -- injection Hk as <-. rewrite Z.add_0_r, Hr. simpl. lia.
        -- replace (i + Z.of_nat (S k)) with (i + 1 + Z.of_nat k) by lia.
           apply H. exact Hk.
      * intros H k o Hk.
        replace (i + 1 + Z.of_nat k) with (i + Z.of_nat (S k)) by lia.
        apply H. exact Hk.
Qed.

End Loop.

(** ** The planned offsets *)

Section Planned.
Context {P : PRNG}.

(** Under a valid plan the [k]-th planned offset is [offset_at] of the
    loop counter (sequential) or of some draw in range (random). *)
Lemma planned_offsets_in_bounds (mode_rand : bool) (rsize total : Z)
  (n : nat) :
  plan_ok rsize total ->
  (mode_rand = true -> rand_in_range P) ->
  forall i g, 0 <= i -> i + Z.of_nat n <= LLONG_MAX ->
  Forall (fun off => 0 <= off <= total - rsize /\ off mod rsize = 0)
    (planned_offsets mode_rand rsize (total - rsize) n i g).
Proof.
  intros Hp Hrand. induction n as [|n IH]; intros i g Hi Hn; simpl;
    [constructor|].
  assert (Hx : 0 <= (if mode_rand then fst (rand g) else i)).
  { destruct mode_rand; [|exact Hi]. apply (Hrand eq_refl g). }
  rewrite (next_offset_ok _ _ _ _ _ Hp Hx).
  assert (Hs : ll_add i 1 = i + 1).
  { unfold ll_add. apply to_s64_small.
    unfold in_s64, LLONG_MIN, LLONG_MAX in *. lia. }
  constructor; [apply offset_at_bounds; exact Hp|].
  apply IH; rewrite Hs; lia.
Qed.

(** In sequential mode the plan is [offset_at] of the successive values of
    the loop counter, whatever the generator. *)
Lemma planned_offsets_seq (rsize total : Z) (n : nat) :
  plan_ok rsize total ->
  forall i g, 0 <= i -> i + Z.of_nat n <= LLONG_MAX ->
  planned_offsets false rsize (total - rsize) n i g =
  map (fun k => offset_at rsize total (i + Z.of_nat k)) (seq 0 n).
Proof.
  intros Hp. induction n as [|n IH]; intros i g Hi Hn;
    cbn [planned_offsets seq map]; [reflexivity|].
  rewrite (next_offset_ok false _ _ _ _ Hp Hi).
  assert (Hs : ll_add i 1 = i + 1).
  { unfold ll_add. apply to_s64_small.
    unfold in_s64, LLONG_MIN, LLONG_MAX in *. lia. }
  rewrite Z.add_0_r. f_equal.
  rewrite IH by (rewrite ?Hs; lia). rewrite Hs, <- seq_shift, map_map.
  apply map_ext. intros k. f_equal. lia.
Qed.

End Planned.

(** ** From the checks of [main] to the loop *)

Lemma loop_bounds (c : config) :
  config_wf c -> record_size c <> 0 -> 0 < total_bytes c -> 0 < ops_of c ->
  plan_ok (record_size c) (total_bytes c) /\
  max_offset_of c = total_bytes c - record_size c /\
  ops_of c = total_bytes c / record_size c /\
  0 + Z.of_nat (Z.to_nat (ops_of c)) <= LLONG_MAX.
Proof.
  intros Hwf Hnz Htb Hops.
  destruct (plan_facts c Hwf Hnz Htb Hops) as (Hp & _ & Ho & Hm).
  repeat split; try apply Hp; auto.
  rewrite Z2Nat.id by lia. rewrite Ho.
  destruct Hp as (Hr & Hle & Hmax).
  assert (total_bytes c / record_size c <= total_bytes c)
    by (apply Z.div_le_upper_bound; nia).
  lia.
Qed.

Lemma planned_offsets_length {P : PRNG} (mode_rand : bool)
  (rsize max_offset : Z) (n : nat) :
  forall i g,
    List.length (planned_offsets mode_rand rsize max_offset n i g) = n.
Proof.
  induction n as [|n IH]; intros i g; simpl; [reflexivity|].
  destruct (next_offset mode_rand rsize max_offset i g) as [off g'].
  simpl. f_equal. apply IH.
Qed.

Ltac same_args :=
  repeat match goal with
         | H : valid_args _ _ _ |- _ =>
             destruct H as (? & ? & ? & ? & ?)
         | H1 : file_path ?c = Some ?p, H2 : file_path ?c = Some ?q |- _ =>
             assert (q = p) by congruence; subst q; clear H2
         | H1 : mode ?c = Some ?p, H2 : mode ?c = Some ?q |- _ =>
             assert (q = p) by congruence; subst q; clear H2
         end.

(** [main] returns 0 exactly when every check passes and every planned read
    succeeds. *)
Lemma main_exit_zero_iff {P : PRNG} (prog : string) (args : list string)
  (w : world) (c : config) :
  parse_args args init_config = inl c ->
  (exit_code (main prog args w) = 0 <-> run_succeeds c w).
Proof.
  intros Hparse.
  pose proof (parse_args_wf _ _ _ init_config_wf Hparse) as Hwf.
  pose proof (main_exit_path prog args w c Hparse) as Hpath.
  split.
  - intros Hexit. destruct Hpath; try discriminate Hexit.
    simpl in Hexit.
    match goal with H : valid_args _ _ _ |- _ => pose proof H as Hv end.
    destruct Hv as (Hf & Hm & Hnz & Htb & Hmode).
    destruct (loop_bounds c Hwf Hnz Htb ltac:(assumption))
      as (Hp & Hmo & Hops & Hn).
    exists path, m. cbv zeta.
    repeat match goal with
           | H : sys_open _ _ = _ |- _ => rewrite H; clear H; cbn [fst snd]
           | H : sys_fstat _ _ = _ |- _ => rewrite H; clear H; cbn [fst snd]
           end.
    repeat split; auto.
    intros k off Hk.
    exact (proj1 (workload_exit_zero w fd _ _ _ _ 0 _ ltac:(lia) Hn)
             Hexit k off Hk).
  - intros (path' & m' & Hf & Hm & Hnz & Htb & Hmode & Hrest).
    cbv zeta in Hrest.
    destruct Hrest as (Hfd & Hret & Hsz & Hsm & Hops & Hma & Hreads).
    destruct Hpath; same_args;
      repeat match goal with
             | H : sys_open _ _ = _ |- _ =>
                 rewrite H in *; clear H; cbn [fst snd] in *
             | H : sys_fstat _ _ = _ |- _ =>
                 rewrite H in *; clear H; cbn [fst snd] in *
             end;
      try lia; try congruence.
    + exfalso. intuition (try congruence; try lia).
    + exfalso. intuition (try congruence; try lia).
    + simpl.
      destruct (loop_bounds c Hwf Hnz Htb Hops) as (Hp & Hmo & Hops' & Hn).
      apply (workload_exit_zero w fd _ _ _ _ 0); [lia | exact Hn |].
      exact Hreads.
Qed.

Lemma in_preads (t : list event) (f count offset : Z) :
  In (EvPread f count offset) t -> In (count, offset) (preads t).
Proof.
  intros H. unfold preads. apply in_flat_map.
  exists (EvPread f count offset). simpl. auto.
Qed.

Ltac in_list := repeat first [left; reflexivity | right].

(** The sample generator draws within the promised range. *)
Lemma iso_c_prng_in_range : rand_in_range iso_c_prng.
Proof.
  intros g. simpl.
  pose proof (Z.mod_pos_bound
                ((g * 1103515245 + 12345) mod 2 ^ 64 / 65536) 32768).
  unfold RAND_MAX. lia.
Qed.

Lemma firstn_seq_le (k n : nat) :
  forall a, (k <= n)%nat -> firstn k (seq a n) = seq a k.
Proof.
  revert n. induction k as [|k IH]; intros n a Hk; [reflexivity|].
  destruct n as [|n]; [lia|]. simpl. f_equal. apply IH. lia.
Qed.

Lemma in_firstn (A : Type) (k : nat) (l : list A) (x : A) :
  In x (firstn k l) -> In x l.
Proof.
  intros H. rewrite <- (firstn_skipn k l). apply in_or_app. left. exact H.
Qed.

(** The reads of a run whose arguments parse: none, or the first [k]
    offsets of the plan, each read of [record_size] bytes, under a valid
    plan; all [op_count] of them when [main] returns 0. *)
Lemma main_preads {P : PRNG} (prog : string) (args : list string)
  (w : world) (c : config) :
  parse_args args init_config = inl c ->
  (preads (trace (main prog args w)) = [] /\
   exit_code (main prog args w) = 1) \/
  exists (m : string) (k : nat),
    mode c = Some m /\ (m = "rand"%string \/ m = "seq"%string) /\
    plan_ok (record_size c) (total_bytes c) /\
    max_offset_of c = total_bytes c - record_size c /\
    ops_of c = total_bytes c / record_size c /\
    0 < ops_of c /\
    (k <= Z.to_nat (ops_of c))%nat /\
    preads (trace (main prog args w)) =
      map (fun off => (record_size c, off))
        (firstn k (plan_offsets c (m =? "rand")%string)) /\
    (exit_code (main prog args w) = 0 -> k = Z.to_nat (ops_of c)).
Proof.
  intros Hparse.
  pose proof (parse_args_wf _ _ _ init_config_wf Hparse) as Hwf.
  destruct (main_exit_path prog args w c Hparse);
    try (left; split; reflexivity).
  right.
  match goal with H : valid_args _ _ _ |- _ =>
    destruct H as (Hf & Hm & Hnz & Htb & Hmode) end.
  destruct (loop_bounds c Hwf Hnz Htb ltac:(assumption))
    as (Hp & Hmo & Hops & Hn).
  destruct (workload_preads w fd (m =? "rand")%string (record_size c)
              (max_offset_of c) (Z.to_nat (ops_of c)) 0 (srand (seed c)))
    as (k & Hk & Hpre & Hex).
  exists m, k. repeat split; try apply Hp; auto.
Qed.

(** C1: in a run that reaches the workload loop, in either mode, every
    positioned read is of [record_size] bytes at an offset between 0 and
    [total_bytes - record_size] that is a multiple of [record_size], so the
    bytes read lie within the first [total_bytes] bytes of the file. *)
Theorem offsets_within_working_set {P : PRNG} (prog : string)
  (args : list string) (w : world) (c : config) (f count offset : Z) :
  rand_in_range P ->
  parse_args args init_config = inl c ->
  In (EvPread f count offset) (trace (main prog args w)) ->
  count = record_size c /\
  0 <= offset <= total_bytes c - record_size c /\
  offset mod record_size c = 0 /\
  0 <= offset /\ offset + count <= total_bytes c.
Proof.
  intros Hrand Hparse Hin. apply in_preads in Hin.
  destruct (main_preads prog args w c Hparse)
    as [[Hnone _]
       | (m & k & Hm & Hmode & Hp & Hmo & Hops & Hpos & Hk & Hpre & _)].
  - rewrite Hnone in Hin. destruct Hin.
  - rewrite Hpre in Hin. apply in_map_iff in Hin as (off & [= <- <-] & Hoff).
    apply in_firstn in Hoff. unfold plan_offsets in Hoff. rewrite Hmo in Hoff.
    pose proof (planned_offsets_in_bounds (m =? "rand")%string
                  (record_size c) (total_bytes c) (Z.to_nat (ops_of c)) Hp
                  (fun _ => Hrand) 0 (srand (seed c)) ltac:(lia)) as Hall.
    assert (Hn : 0 + Z.of_nat (Z.to_nat (ops_of c)) <= LLONG_MAX).
    { rewrite Z2Nat.id by lia. rewrite Hops.
      destruct Hp as (Hr & Hle & Hmax).
      assert (total_bytes c / record_size c <= total_bytes c)
        by (apply Z.div_le_upper_bound; nia).
      lia. }
    specialize (Hall Hn). rewrite Forall_forall in Hall.
    destruct (Hall off Hoff) as (Hb & Hmod). repeat split; lia.
Qed.

(** A run of C1: ten random reads in a working set of ten records. *)
Lemma offsets_within_working_set_witness :
  let args := ["--file"; "data.bin"; "--mode"; "rand"; "--record-size";
               "4096"; "--total-bytes"; "40960"; "--seed"; "7"]%string in
  let r := main (P := iso_c_prng) "fs_bench" args (plain_world 40960) in
  In (EvPread 3 4096 24576) (trace r) /\
  (4096 = 4096 /\ 0 <= 24576 <= 40960 - 4096 /\ 24576 mod 4096 = 0 /\
   0 <= 24576 /\ 24576 + 4096 <= 40960).
Proof.
  split.
  - vm_compute. in_list.
  - apply (offsets_within_working_set (P := iso_c_prng) "fs_bench"
             ["--file"; "data.bin"; "--mode"; "rand"; "--record-size";
              "4096"; "--total-bytes"; "40960"; "--seed"; "7"]%string
             (plain_world 40960)
             {| file_path := Some "data.bin"%string;
                mode := Some "rand"%string;
                record_size := 4096; total_bytes := 40960; seed := 7 |}
             3 4096 24576).
    + exact iso_c_prng_in_range.
    + vm_compute. reflexivity.
    + vm_compute. in_list.
Defined.

(** C2: when every validation and planning check passes and no read fails,
    the program issues exactly [op_count] positioned reads, each of
    [record_size] bytes, where [op_count] is the integer quotient of
    [total_bytes] by [record_size]. *)
Theorem issues_exactly_op_count_reads {P : PRNG} (prog : string)
  (args : list string) (w : world) (c : config) :
  parse_args args init_config = inl c ->
  run_succeeds c w ->
  ops_of c = total_bytes c / record_size c /\
  0 < total_bytes c / record_size c /\
  List.length (preads (trace (main prog args w))) =
    Z.to_nat (total_bytes c / record_size c) /\
  Forall (fun p => fst p = record_size c) (preads (trace (main prog args w))).
Proof.
  intros Hparse Hok.
  apply (main_exit_zero_iff prog args w c Hparse) in Hok.
  destruct (main_preads prog args w c Hparse)
    as [[_ Hone]
       | (m & k & Hm & Hmode & Hp & Hmo & Hops & Hpos & Hk & Hpre & Hall)];
    [congruence|].
  specialize (Hall Hok). subst k. rewrite Hpre.
  repeat split; try lia.
  - rewrite length_map, firstn_all2.
    + unfold plan_offsets. rewrite planned_offsets_length. congruence.
    + unfold plan_offsets. rewrite planned_offsets_length. lia.
  - apply Forall_map. apply Forall_forall. reflexivity.
Qed.

Lemma issues_exactly_op_count_reads_witness :
  let args := ["--file"; "data.bin"; "--mode"; "seq"; "--record-size";
               "100"; "--total-bytes"; "1000"]%string in
  let c := {| file_path := Some "data.bin"%string;
              mode := Some "seq"%string;
              record_size := 100; total_bytes := 1000; seed := 12345 |} in
  let r := main (P := iso_c_prng) "fs_bench" args (plain_world 1000) in
  ops_of c = 1000 / 100 /\
  0 < 1000 / 100 /\
  List.length (preads (trace r)) = Z.to_nat (1000 / 100) /\
  Forall (fun p => fst p = 100) (preads (trace r)).
Proof.
  apply (issues_exactly_op_count_reads (P := iso_c_prng) "fs_bench"
           ["--file"; "data.bin"; "--mode"; "seq"; "--record-size";
            "100"; "--total-bytes"; "1000"]%string (plain_world 1000)
           {| file_path := Some "data.bin"%string;
              mode := Some "seq"%string;
              record_size := 100; total_bytes := 1000; seed := 12345 |}).
  - vm_compute. reflexivity.
  - exists "data.bin"%string, "seq"%string. simpl.
    repeat split; auto; lia.
Defined.

(** ** Sequential mode *)

Section Sequential.
Context {P : PRNG}.

(** The sequential loop never looks at the generator. *)
Lemma workload_seq_rng (w : world) (fd rsize max_offset : Z) (n : nat) :
  forall i g g',
    workload w fd false rsize max_offset n i g =
    workload w fd false rsize max_offset n i g'.
Proof.
  induction n as [|n IH]; intros i g g'; [reflexivity|].
  cbn [workload next_offset].
  destruct (sys_pread w i fd rsize
              (to_s64 (ll_mul (ll_rem i (block_count_of max_offset rsize))
                         (to_s64 rsize)))) as [r e].
  destruct (r <? 0); [reflexivity|]. f_equal. apply IH.
Qed.

(** Changing the seed of a sequential run changes neither its reads nor
    its exit status. *)
Lemma run_seed_seq (prog : string) (c : config) (w : world) (s : Z) :
  mode c = Some "seq"%string ->
  preads (trace (run prog (set_seed c s) w)) = preads (trace (run prog c w))
  /\ exit_code (run prog (set_seed c s) w) = exit_code (run prog c w).
Proof.
  intros Hm. unfold run. cbn [set_seed file_path mode record_size total_bytes].
  rewrite Hm. destruct (file_path c) as [path|]; [|auto].
  destruct ((record_size c =? 0) || (total_bytes c <=? 0)); [auto|].
  cbn [String.eqb Ascii.eqb Bool.eqb andb orb negb].
  unfold opened. cbn [set_seed total_bytes].
  destruct (sys_open w path) as [fd e].
  destruct (fd <? 0); [auto|].
  destruct (sys_fstat w fd) as [[ret size] se].
  destruct (ret <? 0); [auto|].
  destruct (size <=? 0); [auto|].
  destruct (size <? total_bytes c); [auto|].
  unfold planned.
  change (ops_of (set_seed c s)) with (ops_of c).
  change (max_offset_of (set_seed c s)) with (max_offset_of c).
  cbn [set_seed record_size total_bytes seed].
  destruct (ops_of c <=? 0); [auto|].
  destruct (sys_malloc w (record_size c)); cbn [negb]; [|auto].
  rewrite (workload_seq_rng w fd (record_size c) (max_offset_of c)
             (Z.to_nat (ops_of c)) 0 (srand s) (srand (seed c))).
  auto.
Qed.

(** The offsets of a sequential run: [offset_at] of 0, 1, ..., [k - 1]. *)
Lemma main_seq_offsets (prog : string) (args : list string) (w : world)
  (c : config) :
  parse_args args init_config = inl c ->
  mode c = Some "seq"%string ->
  exists k : nat,
    (k <= Z.to_nat (total_bytes c / record_size c))%nat /\
    pread_offsets (trace (main prog args w)) =
      map (fun j => offset_at (record_size c) (total_bytes c) (Z.of_nat j))
        (seq 0 k) /\
    (exit_code (main prog args w) = 0 ->
     k = Z.to_nat (total_bytes c / record_size c) /\
     plan_ok (record_size c) (total_bytes c)).
Proof.
  intros Hparse Hseq. unfold pread_offsets.
  destruct (main_preads prog args w c Hparse)
    as [[Hnone Hone]
       | (m & k & Hm & Hmode & Hp & Hmo & Hops & Hpos & Hk & Hpre & Hall)].
  - exists 0%nat. rewrite Hnone. repeat split; try (simpl; lia); congruence.
  - assert (m = "seq"%string) by congruence. subst m.
    exists k. rewrite Hpre, <- Hops.
    split; [exact Hk|]. split; [|auto].
    rewrite map_map. cbn [snd]. rewrite map_id.
    unfold plan_offsets. rewrite Hmo.
    cbn [String.eqb Ascii.eqb Bool.eqb andb].
    rewrite planned_offsets_seq; auto; try lia.
    + rewrite firstn_map, firstn_seq_le by lia. reflexivity.
    + rewrite Z2Nat.id by lia. rewrite Hops.
      destruct Hp as (Hr & Hle & Hmax).
      assert (total_bytes c / record_size c <= total_bytes c)
        by (apply Z.div_le_upper_bound; nia).
      lia.
Qed.

End Sequential.

(** C3: in Sequential mode the [i]-th issued offset is
    [(i mod block_count) * record_size] with
    [block_count = (total_bytes - record_size) div record_size + 1],
    wherever the run gets; for a valid configuration (every check passes
    and no read fails) the run returns 0 and issues [op_count] offsets,
    the [i]-th being that value for every [i] below [op_count]; and the
    offsets are the same whatever the seed. *)
Theorem sequential_offsets {P : PRNG} (prog : string) (args : list string)
  (w : world) (c : config) :
  parse_args args init_config = inl c ->
  mode c = Some "seq"%string ->
  let r := main prog args w in
  let block_count := (total_bytes c - record_size c) / record_size c + 1 in
  let op_count := total_bytes c / record_size c in
  (forall (i : nat) (off : Z),
     nth_error (pread_offsets (trace r)) i = Some off ->
     off = (Z.of_nat i mod block_count) * record_size c) /\
  (run_succeeds c w ->
   exit_code r = 0 /\ 0 < op_count /\
   List.length (pread_offsets (trace r)) = Z.to_nat op_count /\
   forall i : nat, (i < Z.to_nat op_count)%nat ->
     nth_error (pread_offsets (trace r)) i =
       Some ((Z.of_nat i mod block_count) * record_size c)) /\
  (forall (args' : list string) (c' : config),
     parse_args args' init_config = inl c' ->
     set_seed c' (seed c) = c ->
     pread_offsets (trace (main prog args' w)) = pread_offsets (trace r)).
Proof.
  intros Hparse Hseq r block_count op_count.
  destruct (main_seq_offsets prog args w c Hparse Hseq) as (k & Hk & Hoffs & Hz).
  fold r in Hoffs, Hz. fold op_count in Hk, Hz.
  assert (Hnth : forall i : nat, (i < k)%nat ->
            nth_error (pread_offsets (trace r)) i =
              Some ((Z.of_nat i mod block_count) * record_size c)).
  { intros i Hi. rewrite Hoffs.
    rewrite (map_nth_error _ i (seq 0 k) (d := i)); [reflexivity|].
    rewrite nth_error_seq. apply Nat.ltb_lt in Hi. rewrite Hi. reflexivity. }
  split; [|split].
  - intros i off Hi.
    destruct (Nat.lt_ge_cases i k) as [Hlt|Hge].
    + rewrite (Hnth i Hlt) in Hi. congruence.
    + assert (Hnone : nth_error (pread_offsets (trace r)) i = None).
      { apply nth_error_None. rewrite Hoffs, length_map, length_seq. exact Hge. }
      congruence.
  - intros Hok.
    assert (Hexit : exit_code r = 0)
      by (apply (main_exit_zero_iff prog args w c Hparse); exact Hok).
    destruct (Hz Hexit) as [Hkn Hp]. subst k.
    split; [exact Hexit|]. split.
    { subst op_count. destruct Hp as (Hr & Hle & _).
      apply Z.div_str_pos. lia. }
    split; [rewrite Hoffs, length_map, length_seq; reflexivity|].
    intros i Hi. apply Hnth. exact Hi.
  - intros args' c' Hparse' Hc'. subst r. unfold main, pread_offsets.
    rewrite Hparse, Hparse', <- Hc'. f_equal. symmetry.
    apply run_seed_seq. rewrite <- Hc' in Hseq. exact Hseq.
Qed.

(** A valid sequential run: ten records, every check and read succeeds. *)
Lemma sequential_offsets_witness :
  let args := ["--file"; "data.bin"; "--mode"; "seq"; "--record-size";
               "100"; "--total-bytes"; "1000"]%string in
  let r := main (P := iso_c_prng) "fs_bench" args (plain_world 1000) in
  (forall (i : nat) (off : Z),
     nth_error (pread_offsets (trace r)) i = Some off ->
     off = (Z.of_nat i mod ((1000 - 100) / 100 + 1)) * 100) /\
  (exit_code r = 0 /\ 0 < 1000 / 100 /\
   List.length (pread_offsets (trace r)) = Z.to_nat (1000 / 100) /\
   forall i : nat, (i < Z.to_nat (1000 / 100))%nat ->
     nth_error (pread_offsets (trace r)) i =
       Some ((Z.of_nat i mod ((1000 - 100) / 100 + 1)) * 100)) /\
  (forall (args' : list string) (c' : config),
     parse_args args' init_config = inl c' ->
     set_seed c' 12345 =
       {| file_path := Some "data.bin"%string; mode := Some "seq"%string;
          record_size := 100; total_bytes := 1000; seed := 12345 |} ->
     pread_offsets (trace (main (P := iso_c_prng) "fs_bench" args'
                             (plain_world 1000))) =
     pread_offsets (trace r)).
Proof.
  destruct (sequential_offsets (P := iso_c_prng) "fs_bench"
              ["--file"; "data.bin"; "--mode"; "seq"; "--record-size";
               "100"; "--total-bytes"; "1000"]%string (plain_world 1000)
              {| file_path := Some "data.bin"%string;
                 mode := Some "seq"%string;
                 record_size := 100; total_bytes := 1000; seed := 12345 |}
              ltac:(vm_compute; reflexivity) ltac:(reflexivity))
    as (Hany & Hvalid & Hseed).
  split; [exact Hany|]. split; [|exact Hseed].
  apply Hvalid.
  exists "data.bin"%string, "seq"%string. simpl.
  repeat split; auto; lia.
Defined.

(** ** Random mode *)

Section Random.
Context {P : PRNG}.

(** The plan depends on the configuration through the record size, the
    working-set size and the seed only. *)
Lemma plan_offsets_ext (c1 c2 : config) (mode_rand : bool) :
  seed c1 = seed c2 -> record_size c1 = record_size c2 ->
  total_bytes c1 = total_bytes c2 ->
  plan_offsets c1 mode_rand = plan_offsets c2 mode_rand.
Proof.
  intros Hs Hr Ht. unfold plan_offsets, max_offset_of, ops_of.
  rewrite Hs, Hr, Ht. reflexivity.
Qed.

(** The offsets of a run are an initial segment of the plan. *)
Lemma main_offsets_prefix (prog : string) (args : list string) (w : world)
  (c : config) (m : string) :
  parse_args args init_config = inl c ->
  mode c = Some m ->
  exists k : nat,
    pread_offsets (trace (main prog args w)) =
      firstn k (plan_offsets c (m =? "rand")%string) /\
    (exit_code (main prog args w) = 0 ->
     pread_offsets (trace (main prog args w)) =
       plan_offsets c (m =? "rand")%string).
Proof.
  intros Hparse Hm. unfold pread_offsets.
  destruct (main_preads prog args w c Hparse)
    as [[Hnone Hone]
       | (m' & k & Hm' & Hmode & Hp & Hmo & Hops & Hpos & Hk & Hpre & Hall)].
  - exists 0%nat. rewrite Hnone. split; [reflexivity | congruence].
  - assert (m' = m) by congruence. subst m'.
    rewrite Hpre, map_map. cbn [snd]. rewrite map_id.
    exists k. split; [reflexivity|]. intros Hexit.
    rewrite (Hall Hexit). apply firstn_all2.
    unfold plan_offsets. rewrite planned_offsets_length. lia.
Qed.

(** [srand] is called at most once, with the configured seed, and before
    any read. *)
Lemma main_seeds_once (prog : string) (args : list string) (w : world)
  (c : config) :
  parse_args args init_config = inl c ->
  (srands (trace (main prog args w)) = [] /\
   preads (trace (main prog args w)) = []) \/
  exists pre post,
    trace (main prog args w) = pre ++ EvSrand (seed c) :: post /\
    preads pre = [] /\ srands pre = [] /\ srands post = [].
Proof.
  intros Hparse.
  destruct (main_exit_path prog args w c Hparse);
    try (left; split; reflexivity); right.
  - exists [EvOpen path; EvFstat fd],
      [EvMalloc (record_size c); eprint (DMallocFailed (record_size c));
       EvClose fd].
    repeat split.
  - exists [EvOpen path; EvFstat fd],
      (EvMalloc (record_size c)
       :: trace (workload w fd (m =? "rand")%string (record_size c)
                   (max_offset_of c) (Z.to_nat (ops_of c)) 0
                   (srand (seed c)))).
    repeat split.
    pose proof (workload_streams w fd (m =? "rand")%string (record_size c)
                  (max_offset_of c) (Z.to_nat (ops_of c)) 0 (srand (seed c)))
      as (_ & Hs & _).
    simpl. exact Hs.
Qed.

End Random.

(** C4: in Random mode two runs with the same seed, record size and
    working-set size (hence the same operation count) issue the same
    offsets, whatever else differs between them: position by position as
    far as both runs get, and as whole sequences when both complete.  The
    generator is seeded once, with the configured seed, before any read. *)
Theorem random_offsets_reproducible {P : PRNG} (prog1 prog2 : string)
  (args1 args2 : list string) (w1 w2 : world) (c1 c2 : config) :
  parse_args args1 init_config = inl c1 ->
  parse_args args2 init_config = inl c2 ->
  mode c1 = Some "rand"%string -> mode c2 = Some "rand"%string ->
  seed c1 = seed c2 -> record_size c1 = record_size c2 ->
  total_bytes c1 = total_bytes c2 ->
  let r1 := main prog1 args1 w1 in
  let r2 := main prog2 args2 w2 in
  (forall (i : nat) (o1 o2 : Z),
     nth_error (pread_offsets (trace r1)) i = Some o1 ->
     nth_error (pread_offsets (trace r2)) i = Some o2 -> o1 = o2) /\
  (exit_code r1 = 0 -> exit_code r2 = 0 ->
   pread_offsets (trace r1) = pread_offsets (trace r2)) /\
  (exit_code r1 = 0 ->
   exists pre post,
     trace r1 = pre ++ EvSrand (seed c1) :: post /\
     preads pre = [] /\ srands pre = [] /\ srands post = []).
Proof.
  intros Hp1 Hp2 Hm1 Hm2 Hs Hr Ht r1 r2.
  destruct (main_offsets_prefix prog1 args1 w1 c1 _ Hp1 Hm1) as (k1 & Hk1 & Hz1).
  destruct (main_offsets_prefix prog2 args2 w2 c2 _ Hp2 Hm2) as (k2 & Hk2 & Hz2).
  fold r1 in Hk1, Hz1. fold r2 in Hk2, Hz2.
  rewrite <- (plan_offsets_ext c1 c2 _ Hs Hr Ht) in Hk2, Hz2.
  split; [|split].
  - intros i o1 o2. rewrite Hk1, Hk2, !nth_error_firstn.
    destruct (i <? k1)%nat; [|discriminate].
    destruct (i <? k2)%nat; [|discriminate]. congruence.
  - intros H1 H2. rewrite (Hz1 H1), (Hz2 H2). reflexivity.
  - intros H1.
    destruct (main_seeds_once prog1 args1 w1 c1 Hp1) as [[_ Hnone] | H];
      [|exact H].
    exfalso. fold r1 in Hnone.
    destruct (main_preads prog1 args1 w1 c1 Hp1)
      as [[_ Hone]
         | (m & k & Hm & Hmode & Hpl & Hmo & Hops & Hpos & Hk & Hpre & Hall)].
    + fold r1 in Hone. congruence.
    + fold r1 in Hpre, Hall. specialize (Hall H1). subst k.
      rewrite Hnone in Hpre. apply (f_equal (@List.length _)) in Hpre.
      rewrite length_map, firstn_all2 in Hpre
        by (unfold plan_offsets; rewrite planned_offsets_length; lia).
      unfold plan_offsets in Hpre. rewrite planned_offsets_length in Hpre.
      simpl in Hpre. lia.
Qed.

Lemma random_offsets_reproducible_witness :
  let args1 := ["--file"; "data.bin"; "--mode"; "rand"; "--record-size";
                "4096"; "--total-bytes"; "40960"; "--seed"; "7"]%string in
  let args2 := ["--seed"; "7"; "--total-bytes"; "40960"; "--record-size";
                "4096"; "--mode"; "rand"; "--file"; "other.bin"]%string in
  let r1 := main (P := iso_c_prng) "fs_bench" args1 (plain_world 40960) in
  let r2 := main (P := iso_c_prng) "./fs_bench" args2 (plain_world 50000) in
  (forall (i : nat) (o1 o2 : Z),
     nth_error (pread_offsets (trace r1)) i = Some o1 ->
     nth_error (pread_offsets (trace r2)) i = Some o2 -> o1 = o2) /\
  (exit_code r1 = 0 -> exit_code r2 = 0 ->
   pread_offsets (trace r1) = pread_offsets (trace r2)) /\
  (exit_code r1 = 0 ->
   exists pre post,
     trace r1 = pre ++ EvSrand 7 :: post /\
     preads pre = [] /\ srands pre = [] /\ srands post = []).
Proof.
  apply (random_offsets_reproducible (P := iso_c_prng) "fs_bench" "./fs_bench"
           ["--file"; "data.bin"; "--mode"; "rand"; "--record-size";
            "4096"; "--total-bytes"; "40960"; "--seed"; "7"]%string
           ["--seed"; "7"; "--total-bytes"; "40960"; "--record-size";
            "4096"; "--mode"; "rand"; "--file"; "other.bin"]%string
           (plain_world 40960) (plain_world 50000)
           {| file_path := Some "data.bin"%string;
              mode := Some "rand"%string;
              record_size := 4096; total_bytes := 40960; seed := 7 |}
           {| file_path := Some "other.bin"%string;
              mode := Some "rand"%string;
              record_size := 4096; total_bytes := 40960; seed := 7 |});
    try reflexivity; vm_compute; reflexivity.
Defined.

(** ** The planning checks *)

Ltac same_world :=
  same_args;
  repeat match goal with
         | H1 : sys_open ?w ?p = _, H2 : sys_open ?w ?p = _ |- _ =>
             rewrite H1 in H2; injection H2 as ? ?; subst
         | H1 : sys_fstat ?w ?p = _, H2 : sys_fstat ?w ?p = _ |- _ =>
             rewrite H1 in H2; injection H2 as ? ? ?; subst
         end.

(** A record larger than the working set leaves no operation to run. *)
Lemma ops_nonpos (c : config) :
  config_wf c -> 0 < total_bytes c -> record_size c > total_bytes c ->
  ops_of c <= 0.
Proof.
  intros Hwf Htb Hgt.
  destruct (Z_lt_le_dec 0 (ops_of c)) as [Hpos|]; [|assumption].
  destruct (plan_facts c Hwf ltac:(lia) Htb Hpos) as ((_ & Hle & _) & _).
  lia.
Qed.

(** C5, as the code has it: with valid arguments and a file that opens
    and whose size is obtained, a size strictly below [total_bytes] ends
    the run with status 1 before any read; the diagnostic is the
    file-too-small one when the size is positive, and the separate
    non-positive-size one otherwise. *)
Theorem file_too_small {P : PRNG} (prog : string) (args : list string)
  (w : world) (c : config) (path m : string) (fd e ret size se : Z) :
  parse_args args init_config = inl c ->
  valid_args c path m ->
  sys_open w path = (fd, e) -> 0 <= fd ->
  sys_fstat w fd = (ret, size, se) -> 0 <= ret ->
  size < total_bytes c ->
  let r := main prog args w in
  exit_code r = 1 /\ preads (trace r) = [] /\
  (0 < size ->
   trace r = [EvOpen path; EvFstat fd;
              eprint (DFileTooSmall size (total_bytes c)); EvClose fd]) /\
  (size <= 0 ->
   trace r = [EvOpen path; EvFstat fd;
              eprint (DFileSizeNonPositive size); EvClose fd]).
Proof.
  intros Hparse Hv Ho Hfd Hs Hret Hlt r. subst r.
  destruct (main_exit_path prog args w c Hparse); same_world;
    try (exfalso; intuition (try congruence; try lia); fail);
    try lia;
    repeat split; intros; try reflexivity; lia.
Qed.

Lemma file_too_small_witness :
  let args := ["--file"; "data.bin"; "--mode"; "seq"; "--record-size";
               "100"; "--total-bytes"; "1000"]%string in
  let r := main (P := iso_c_prng) "fs_bench" args (plain_world 999) in
  exit_code r = 1 /\ preads (trace r) = [] /\
  (0 < 999 ->
   trace r = [EvOpen "data.bin"; EvFstat 3;
              eprint (DFileTooSmall 999 1000); EvClose 3]) /\
  (999 <= 0 ->
   trace r = [EvOpen "data.bin"; EvFstat 3;
              eprint (DFileSizeNonPositive 999); EvClose 3]).
Proof.
  apply (file_too_small (P := iso_c_prng) "fs_bench"
           ["--file"; "data.bin"; "--mode"; "seq"; "--record-size";
            "100"; "--total-bytes"; "1000"]%string (plain_world 999)
           {| file_path := Some "data.bin"%string;
              mode := Some "seq"%string;
              record_size := 100; total_bytes := 1000; seed := 12345 |}
           "data.bin" "seq" 3 0 0 999 0).
  - vm_compute. reflexivity.
  - unfold valid_args. simpl. repeat split; auto; lia.
  - reflexivity.
  - lia.
  - reflexivity.
  - lia.
  - simpl. lia.
Defined.

(** C5 as stated fails on an empty file: its size, 0, is strictly less
    than [total_bytes = 1], and the run ends on the non-positive-size
    diagnostic, not on the file-too-small one. *)
Lemma file_too_small_counterexample :
  let args := ["--file"; "data.bin"; "--mode"; "seq"; "--record-size";
               "1"; "--total-bytes"; "1"]%string in
  let r := main (P := iso_c_prng) "fs_bench" args (plain_world 0) in
  snd (fst (sys_fstat (plain_world 0) 3)) < 1 /\
  stderr_of (trace r) = [DFileSizeNonPositive 0] /\
  ~ In (DFileTooSmall 0 1) (stderr_of (trace r)).
Proof.
  vm_compute. repeat split; try discriminate.
  intros [H|[]]. discriminate H.
Qed.

(** C6: a record size above the working-set size ends every run with
    status 1 and without a read; when the run gets as far as the planning
    check (valid arguments, file opened, size obtained and sufficient) the
    operation count is not positive, the diagnostic is the degenerate
    workload one and the only file operations are open, fstat and close. *)
Theorem degenerate_workload {P : PRNG} (prog : string) (args : list string)
  (w : world) (c : config) :
  parse_args args init_config = inl c ->
  record_size c > total_bytes c ->
  let r := main prog args w in
  exit_code r = 1 /\ preads (trace r) = [] /\
  forall (path m : string) (fd e ret size se : Z),
    valid_args c path m ->
    sys_open w path = (fd, e) -> 0 <= fd ->
    sys_fstat w fd = (ret, size, se) -> 0 <= ret ->
    total_bytes c <= size ->
    ops_of c <= 0 /\
    trace r = [EvOpen path; EvFstat fd;
               eprint (DTotalTooSmall (total_bytes c) (record_size c));
               EvClose fd].
Proof.
  intros Hparse Hgt r. subst r.
  pose proof (parse_args_wf _ _ _ init_config_wf Hparse) as Hwf.
  assert (Hops : 0 < total_bytes c -> ops_of c <= 0)
    by (intros; apply ops_nonpos; assumption).
  destruct (main_exit_path prog args w c Hparse).
  1-7: split; [reflexivity|]; split; [reflexivity|];
    intros path' m' fd' e' ret' size' se' Hv Ho Hfd Hs Hret Hsz;
    same_world;
    try (exfalso; intuition (try congruence; try lia); fail);
    try lia.
  1: split; [assumption | reflexivity].
  all: exfalso;
    match goal with H : valid_args _ _ _ |- _ =>
      destruct H as (_ & _ & _ & Htb & _) end;
    specialize (Hops Htb); lia.
Qed.

Lemma degenerate_workload_witness :
  let args := ["--file"; "data.bin"; "--mode"; "seq"; "--record-size";
               "4096"; "--total-bytes"; "1000"]%string in
  let c := {| file_path := Some "data.bin"%string;
              mode := Some "seq"%string;
              record_size := 4096; total_bytes := 1000; seed := 12345 |} in
  let r := main (P := iso_c_prng) "fs_bench" args (plain_world 1000) in
  ops_of c <= 0 /\
  trace r = [EvOpen "data.bin"; EvFstat 3; eprint (DTotalTooSmall 1000 4096);
             EvClose 3].
Proof.
  refine ((fun H => proj2 (proj2 H) "data.bin"%string "seq"%string
                      3 0 0 1000 0 _ _ _ _ _ _)
            (degenerate_workload (P := iso_c_prng) "fs_bench"
               ["--file"; "data.bin"; "--mode"; "seq"; "--record-size";
                "4096"; "--total-bytes"; "1000"]%string (plain_world 1000)
               {| file_path := Some "data.bin"%string;
                  mode := Some "seq"%string;
                  record_size := 4096; total_bytes := 1000; seed := 12345 |}
               _ _)).
  - unfold valid_args. simpl. repeat split; auto; lia.
  - reflexivity.
  - lia.
  - reflexivity.
  - lia.
  - simpl. lia.
  - vm_compute. reflexivity.
  - simpl. lia.
Defined.

(** ** Argument validation *)

(** The value of a trailing [--record-size] flag is what [strtoull] makes
    of its text. *)
Lemma record_size_of_last_flag (pre : list string) (v : string)
  (c0 : config) :
  parse_args pre init_config = inl c0 ->
  parse_args (pre ++ ["--record-size"; v]%string) init_config =
    inl (set_record_size c0 (strtoull v)).
Proof.
  intros H. rewrite (parse_args_app pre _ _ _ H), parse_args_step.
  unfold step_flag. cbn [String.eqb Ascii.eqb Bool.eqb andb].
  cbn [parse_args]. unfold to_u64.
  pose proof (strtoull_range v) as Hr. unfold in_u64, ULLONG_MAX in Hr.
  rewrite Z.mod_small by lia. reflexivity.
Qed.

(** C7, as the code has it: a record size that parses to zero (the text
    spells zero or has no digits where digits are expected) is rejected by
    the same test, and with the same diagnostic, as a missing required
    argument; the usage follows and the run ends with status 1 without
    opening the file. *)
Theorem zero_record_size_rejected {P : PRNG} (prog : string)
  (args : list string) (w : world) (c : config) :
  parse_args args init_config = inl c ->
  record_size c = 0 ->
  let r := main prog args w in
  trace r = [eprint DMissingRequired; usage prog] /\
  exit_code r = 1 /\ opens (trace r) = [].
Proof.
  intros Hparse Hz r. subst r.
  destruct (main_exit_path prog args w c Hparse); same_args;
    try congruence.
  repeat split.
Qed.

Lemma zero_record_size_rejected_witness :
  let args := ["--file"; "data.bin"; "--mode"; "seq"; "--total-bytes";
               "1000"; "--record-size"; "abc"]%string in
  let r := main (P := iso_c_prng) "fs_bench" args (plain_world 1000) in
  trace r = [eprint DMissingRequired; usage "fs_bench"] /\
  exit_code r = 1 /\ opens (trace r) = [].
Proof.
  apply (zero_record_size_rejected (P := iso_c_prng) "fs_bench"
           ["--file"; "data.bin"; "--mode"; "seq"; "--total-bytes";
            "1000"; "--record-size"; "abc"]%string (plain_world 1000)
           {| file_path := Some "data.bin"%string;
              mode := Some "seq"%string;
              record_size := 0; total_bytes := 1000; seed := 12345 |}).
  - vm_compute. reflexivity.
  - reflexivity.
Defined.

(** C7 as stated fails: with [--record-size 0] the only diagnostic is the
    missing-arguments one, the very output of a command line without
    [--record-size]; and [--record-size -5], not a positive integer, passes
    the validation, so that the file is opened. *)
Lemma invalid_record_size_counterexample :
  let zero := ["--file"; "data.bin"; "--mode"; "seq"; "--total-bytes";
               "1000"; "--record-size"; "0"]%string in
  let absent := ["--file"; "data.bin"; "--mode"; "seq"; "--total-bytes";
                 "1000"]%string in
  let negative := ["--file"; "data.bin"; "--mode"; "seq"; "--total-bytes";
                   "1000"; "--record-size"; "-5"]%string in
  let run_on args :=
    main (P := iso_c_prng) "fs_bench" args (plain_world 1000) in
  stderr_of (trace (run_on zero)) = [DMissingRequired; DUsage "fs_bench"] /\
  trace (run_on zero) = trace (run_on absent) /\
  opens (trace (run_on negative)) = ["data.bin"%string].
Proof.
  vm_compute. repeat split.
Qed.

(** C10, as the code has it: when an argument in flag position is not one
    of the five flags, or is a flag and the last argument, the program
    names it, prints the usage and ends with status 1 without opening the
    file. *)
Theorem rejected_argument {P : PRNG} (prog : string) (args : list string)
  (w : world) (b : string) :
  rejected args b ->
  let r := main prog args w in
  trace r = [eprint (DUnknownArg b); usage prog] /\
  exit_code r = 1 /\ opens (trace r) = [].
Proof.
  intros H r. subst r. unfold main.
  apply (parse_args_rejected args init_config b) in H. rewrite H.
  repeat split.
Qed.

Lemma rejected_argument_witness :
  let args := ["--file"; "data.bin"; "--bogus"; "1"; "--mode"]%string in
  let r := main (P := iso_c_prng) "fs_bench" args (plain_world 1000) in
  trace r = [eprint (DUnknownArg "--bogus"); usage "fs_bench"] /\
  exit_code r = 1 /\ opens (trace r) = [].
Proof.
  apply (rejected_argument (P := iso_c_prng) "fs_bench"
           ["--file"; "data.bin"; "--bogus"; "1"; "--mode"]%string
           (plain_world 1000) "--bogus").
  apply rejected_later; [reflexivity|].
  apply rejected_unknown. reflexivity.
Defined.

(** C10 as stated fails: this command line contains arguments that are
    not flags ([data.bin] among them) and ends on the flag [--seed] with
    nothing after it; that last argument is read as the value of the
    [--seed] before it, the file is opened and the run returns 0 in
    silence. *)
Lemma trailing_flag_counterexample :
  let args := ["--file"; "data.bin"; "--mode"; "seq"; "--record-size"; "1";
               "--total-bytes"; "1"; "--seed"; "--seed"]%string in
  let r := main (P := iso_c_prng) "fs_bench" args (plain_world 1) in
  In "data.bin"%string args /\ is_flag "data.bin" = false /\
  last args ""%string = "--seed"%string /\ is_flag "--seed" = true /\
  exit_code r = 0 /\ opens (trace r) = ["data.bin"%string] /\
  stderr_of (trace r) = [].
Proof.
  vm_compute. repeat split. in_list.
Qed.

(** ** Exit status and output *)

Lemma diag_format_nonempty (d : diag) : diag_format d <> ""%string.
Proof. destruct d; discriminate. Qed.

(** C8: a run writes nothing to the standard output; it ends with status
    0 or 1; with 0 exactly when the arguments parse, every check passes and
    every one of the [op_count] reads succeeds, and then nothing is written
    to the error stream either; with 1 in every other case, and then the
    error stream carries a diagnostic. *)
Theorem exit_status_and_output {P : PRNG} (prog : string)
  (args : list string) (w : world) :
  let r := main prog args w in
  stdout_of (trace r) = [] /\
  (exit_code r = 0 \/ exit_code r = 1) /\
  (exit_code r = 0 <->
   exists c, parse_args args init_config = inl c /\ run_succeeds c w) /\
  (exit_code r = 0 -> stderr_of (trace r) = []) /\
  (exit_code r = 1 ->
   exists d rest,
     stderr_of (trace r) = d :: rest /\ diag_format d <> ""%string).
Proof.
  intros r. subst r.
  destruct (parse_args args init_config) as [c|bad] eqn:Hparse.
  - assert (Hiff : exit_code (main prog args w) = 0 <->
                   exists c', @inl config string c = inl c' /\
                              run_succeeds c' w).
    { rewrite (main_exit_zero_iff prog args w c Hparse). split.
      - intros H. exists c. auto.
      - intros (c' & [= <-] & H). exact H. }
    split; [|split; [|split; [exact Hiff|]]];
      clear Hiff;
      destruct (main_exit_path prog args w c Hparse);
      try reflexivity; try (right; reflexivity);
      try (split; [discriminate|]; intros _; eexists; eexists;
           split; [reflexivity | apply diag_format_nonempty]).
    + apply (workload_streams w fd (m =? "rand")%string).
    + apply (workload_exit w fd (m =? "rand")%string).
    + pose proof (workload_streams w fd (m =? "rand")%string (record_size c)
                    (max_offset_of c) (Z.to_nat (ops_of c)) 0
                    (srand (seed c))) as (_ & _ & _ & Hzero & Hfail).
      split; [exact Hzero|]. intros Hone.
      destruct (Hfail Hone) as (off & e' & He). simpl in *.
      exists (DPreadFailed off (record_size c) e'), [].
      split; [exact He | discriminate].
  - unfold main. rewrite Hparse. simpl.
    repeat split; auto; try discriminate.
    + intros (c & [=] & _).
    + intros _. eexists; eexists. split; [reflexivity | discriminate].
Qed.

(** ** Block count and operation count *)

(** The plan of a positive record size that fits in the working set. *)
Lemma plan_of_valid (c : config) :
  config_wf c -> 0 < record_size c -> record_size c <= total_bytes c ->
  plan_ok (record_size c) (total_bytes c) /\
  ops_of c = total_bytes c / record_size c /\
  max_offset_of c = total_bytes c - record_size c /\
  0 < total_bytes c / record_size c.
Proof.
  intros (_ & Ht & _) Hr Hle.
  unfold in_s64, LLONG_MIN, LLONG_MAX in Ht.
  assert (Hq : 0 < total_bytes c / record_size c)
    by (apply Z.div_str_pos; lia).
  assert (Hq' : total_bytes c / record_size c <= total_bytes c)
    by (apply Z.div_le_upper_bound; nia).
  unfold ops_of, max_offset_of, ll_div, ll_sub, plan_ok, LLONG_MAX.
  rewrite (to_s64_small (record_size c))
    by (unfold in_s64, LLONG_MIN, LLONG_MAX; lia).
  rewrite Z.quot_div_nonneg by lia.
  rewrite (to_s64_small (total_bytes c / record_size c))
    by (unfold in_s64, LLONG_MIN, LLONG_MAX; lia).
  rewrite !(to_s64_small (total_bytes c - record_size c))
    by (unfold in_s64, LLONG_MIN, LLONG_MAX; lia).
  repeat split; lia.
Qed.

Lemma multiples_sorted (rsize : Z) (n : nat) :
  0 < rsize ->
  forall a : nat,
    StronglySorted Z.lt (map (fun j => Z.of_nat j * rsize) (seq a n)).
Proof.
  intros Hr. induction n as [|n IH]; intros a; simpl; constructor.
  - apply IH.
  - apply Forall_forall. intros y Hy.
    apply in_map_iff in Hy as (j & <- & Hj). apply in_seq in Hj. nia.
Qed.

Lemma multiples_cover (rsize total : Z) :
  0 < rsize -> rsize <= total ->
  forall o : Z,
    In o (map (fun j => Z.of_nat j * rsize)
            (seq 0 (Z.to_nat ((total - rsize) / rsize + 1)))) <->
    0 <= o <= total - rsize /\ o mod rsize = 0.
Proof.
  intros Hr Hle o.
  assert (Hq : 0 <= (total - rsize) / rsize) by (apply Z.div_pos; lia).
  pose proof (Z.mul_div_le (total - rsize) rsize Hr) as Hd.
  split.
  - intros Hin. apply in_map_iff in Hin as (j & <- & Hj).
    apply in_seq in Hj. split; [|apply Z.mod_mul; lia].
    split; [nia|].
    apply Z.le_trans with (rsize * ((total - rsize) / rsize)); [nia|exact Hd].
  - intros [Hb Hmod]. apply in_map_iff. exists (Z.to_nat (o / rsize)).
    assert (Ho : 0 <= o / rsize) by (apply Z.div_pos; lia).
    assert (Hdiv : o / rsize <= (total - rsize) / rsize)
      by (apply Z.div_le_mono; lia).
    split.
    + rewrite Z2Nat.id by lia.
      pose proof (Z.div_mod o rsize ltac:(lia)). nia.
    + apply in_seq. lia.
Qed.

Lemma sorted_lt_nodup (l : list Z) : StronglySorted Z.lt l -> NoDup l.
Proof.
  induction 1 as [|x l Hs IH Hall]; constructor; [|exact IH].
  intros Hin. rewrite Forall_forall in Hall. specialize (Hall x Hin). lia.
Qed.

(** C9: when the record size is positive and fits in the working set, the
    block count [(total_bytes - record_size) div record_size + 1] is the
    operation count [total_bytes div record_size], and so are the values
    the program computes for them; hence a Sequential run issues the
    offsets [0, record_size, 2 * record_size, ...] in strictly increasing
    order without repetition and, for a valid configuration (every check
    passes and no read fails), returns 0 having issued each of the
    [block_count] block-aligned offsets of the working set exactly once. *)
Theorem block_count_is_op_count {P : PRNG} (prog : string)
  (args : list string) (w : world) (c : config) :
  parse_args args init_config = inl c ->
  0 < record_size c -> record_size c <= total_bytes c ->
  let r := main prog args w in
  let block_count := (total_bytes c - record_size c) / record_size c + 1 in
  let op_count := total_bytes c / record_size c in
  block_count = op_count /\
  block_count_of (max_offset_of c) (record_size c) = block_count /\
  ops_of c = op_count /\
  (mode c = Some "seq"%string ->
   (exists k : nat,
      (k <= Z.to_nat block_count)%nat /\
      pread_offsets (trace r) =
        map (fun j => Z.of_nat j * record_size c) (seq 0 k) /\
      (run_succeeds c w -> k = Z.to_nat block_count)) /\
   StronglySorted Z.lt (pread_offsets (trace r)) /\
   NoDup (pread_offsets (trace r)) /\
   (run_succeeds c w ->
    exit_code r = 0 /\ 0 < block_count /\
    pread_offsets (trace r) =
      map (fun j => Z.of_nat j * record_size c)
        (seq 0 (Z.to_nat block_count)) /\
    forall o : Z,
      In o (pread_offsets (trace r)) <->
      0 <= o <= total_bytes c - record_size c /\ o mod record_size c = 0)).
Proof.
  intros Hparse Hr Hle r block_count op_count.
  pose proof (parse_args_wf _ _ _ init_config_wf Hparse) as Hwf.
  destruct (plan_of_valid c Hwf Hr Hle) as (Hp & Hops & Hmo & Hpos).
  assert (Hbc : block_count = op_count) by (apply div_sub_one; exact Hr).
  split; [exact Hbc|]. split; [|split; [exact Hops|]].
  { rewrite Hmo. apply (block_count_of_ok _ _ Hp). }
  intros Hseq.
  destruct (main_seq_offsets prog args w c Hparse Hseq)
    as (k & Hk & Hoffs & Hz).
  fold r in Hoffs, Hz. fold op_count in Hk, Hz.
  assert (Hmul : pread_offsets (trace r) =
                 map (fun j => Z.of_nat j * record_size c) (seq 0 k)).
  { rewrite Hoffs. apply map_ext_in. intros j Hj. apply in_seq in Hj.
    unfold offset_at. fold block_count. rewrite Z.mod_small; [reflexivity|].
    rewrite Hbc. lia. }
  assert (Hsorted : StronglySorted Z.lt (pread_offsets (trace r)))
    by (rewrite Hmul; apply multiples_sorted; exact Hr).
  assert (Hfull : run_succeeds c w ->
                  exit_code r = 0 /\ k = Z.to_nat block_count).
  { intros Hok.
    assert (Hexit : exit_code r = 0)
      by (apply (main_exit_zero_iff prog args w c Hparse); exact Hok).
    split; [exact Hexit|]. rewrite Hbc. apply Hz. exact Hexit. }
  split; [|split; [exact Hsorted|split; [apply sorted_lt_nodup; exact Hsorted|]]].
  - exists k. rewrite Hbc. repeat split; auto.
    intros Hok. rewrite <- Hbc. apply Hfull. exact Hok.
  - intros Hok. destruct (Hfull Hok) as [Hexit ->].
    split; [exact Hexit|]. split; [rewrite Hbc; exact Hpos|].
    split; [exact Hmul|]. intros o. rewrite Hmul.
    apply multiples_cover; assumption.
Qed.

(** A valid sequential run over a working set of three records and a
    remainder. *)
Lemma block_count_is_op_count_witness :
  let args := ["--file"; "data.bin"; "--mode"; "seq"; "--record-size";
               "300"; "--total-bytes"; "1000"]%string in
  let c := {| file_path := Some "data.bin"%string;
              mode := Some "seq"%string;
              record_size := 300; total_bytes := 1000; seed := 12345 |} in
  let r := main (P := iso_c_prng) "fs_bench" args (plain_world 1000) in
  (1000 - 300) / 300 + 1 = 1000 / 300 /\
  block_count_of (max_offset_of c) 300 = (1000 - 300) / 300 + 1 /\
  ops_of c = 1000 / 300 /\
  StronglySorted Z.lt (pread_offsets (trace r)) /\
  NoDup (pread_offsets (trace r)) /\
  exit_code r = 0 /\ 0 < (1000 - 300) / 300 + 1 /\
  pread_offsets (trace r) =
    map (fun j => Z.of_nat j * 300) (seq 0 (Z.to_nat ((1000 - 300) / 300 + 1))) /\
  forall o : Z,
    In o (pread_offsets (trace r)) <->
    0 <= o <= 1000 - 300 /\ o mod 300 = 0.
Proof.
  destruct (block_count_is_op_count (P := iso_c_prng) "fs_bench"
              ["--file"; "data.bin"; "--mode"; "seq"; "--record-size";
               "300"; "--total-bytes"; "1000"]%string (plain_world 1000)
              {| file_path := Some "data.bin"%string;
                 mode := Some "seq"%string;
                 record_size := 300; total_bytes := 1000; seed := 12345 |}
              ltac:(vm_compute; reflexivity) ltac:(simpl; lia)
              ltac:(simpl; lia))
    as (Hbc & Hcode & Hops & Hseq).
  destruct (Hseq eq_refl) as (_ & Hsorted & Hnodup & Hvalid).
  split; [exact Hbc|]. split; [exact Hcode|]. split; [exact Hops|].
  split; [exact Hsorted|]. split; [exact Hnodup|].
  apply Hvalid.
  exists "data.bin"%string, "seq"%string. simpl.
  repeat split; auto; lia.
Defined.

(** ** Sample conversions and runs *)

Example strtoull_digits : strtoull "4096" = 4096.
Proof. reflexivity. Qed.

Example strtoull_text : strtoull "abc" = 0.
Proof. reflexivity. Qed.

Example strtoull_negative : strtoull "-5" = 2 ^ 64 - 5.
Proof. reflexivity. Qed.

Example strtoull_prefix : strtoull " +12abc" = 12.
Proof. reflexivity. Qed.

Example strtoll_negative : strtoll "-5" = -5.
Proof. reflexivity. Qed.

Example strtoll_saturates : strtoll "99999999999999999999" = LLONG_MAX.
Proof. reflexivity. Qed.

(** Ten sequential reads over a file of a thousand bytes. *)
Example scenario_seq :
  let r := main (P := iso_c_prng) "fs_bench"
             ["--file"; "data.bin"; "--mode"; "seq"; "--record-size"; "100";
              "--total-bytes"; "1000"]%string (plain_world 1000) in
  exit_code r = 0 /\
  pread_offsets (trace r) = [0; 100; 200; 300; 400; 500; 600; 700; 800; 900] /\
  stderr_of (trace r) = [] /\ stdout_of (trace r) = [].
Proof. vm_compute. repeat split. Qed.

(** Two random reads in a working set of two records. *)
Example scenario_rand :
  let r := main (P := iso_c_prng) "fs_bench"
             ["--file"; "data.bin"; "--mode"; "rand"; "--record-size";
              "4096"; "--total-bytes"; "8192"; "--seed"; "1"]%string
             (plain_world 8192) in
  exit_code r = 0 /\ preads (trace r) = [(4096, 0); (4096, 0)].
Proof. vm_compute. repeat split. Qed.

(** A working set of one record: one read at offset 0. *)
Example scenario_single_record :
  let r := main (P := iso_c_prng) "fs_bench"
             ["--file"; "data.bin"; "--mode"; "rand"; "--record-size";
              "512"; "--total-bytes"; "512"]%string (plain_world 4096) in
  exit_code r = 0 /\ preads (trace r) = [(512, 0)].
Proof. vm_compute. repeat split. Qed.

(** No [--mode]: the missing-arguments diagnostic and the usage, no file. *)
Example scenario_missing_mode :
  let r := main (P := iso_c_prng) "fs_bench"
             ["--file"; "data.bin"; "--record-size"; "100";
              "--total-bytes"; "1000"]%string (plain_world 1000) in
  exit_code r = 1 /\
  trace r = [eprint DMissingRequired; usage "fs_bench"].
Proof. vm_compute. repeat split. Qed.

(** A read that fails in the third iteration ends the run there. *)
Example scenario_read_error :
  let w := {| sys_open := fun _ => (3, 0);
              sys_fstat := fun _ => (0, 1000, 0);
              sys_malloc := fun _ => true;
              sys_pread := fun i _ count _ =>
                             if i =? 2 then (-1, 5) else (count, 0) |} in
  let r := main (P := iso_c_prng) "fs_bench"
             ["--file"; "data.bin"; "--mode"; "seq"; "--record-size"; "100";
              "--total-bytes"; "1000"]%string w in
  exit_code r = 1 /\
  pread_offsets (trace r) = [0; 100; 200] /\
  stderr_of (trace r) = [DPreadFailed 200 100 5].
Proof. vm_compute. repeat split. Qed.

(** * Further properties of [main] *)

(** ** The argument loop: what it accepts and what it stores *)

(** X1: the argument loop accepts a command line exactly when it is a
    sequence of recognized flags, each followed by one argument, whatever
    those arguments are. *)
Theorem parse_args_accepts_iff (args : list string) (c0 : config) :
  (exists c, parse_args args c0 = inl c) <-> flag_pairs args.
Proof.
  revert c0.
  induction args as [| a | a v rest IH] using list_pair_ind; intros c0.
  - split; [constructor | intros _; exists c0; reflexivity].
  - split; [intros [c H]; discriminate | intros H; inversion H].
  - rewrite parse_args_step. split.
    + intros [c H]. destruct (step_flag a v c0) as [c'|] eqn:E;
        [|discriminate].
      constructor.
      * apply (step_flag_is_flag a v c0). eauto.
      * apply (IH c'). eauto.
    + intros H. inversion H as [|a' v' rest' Hf Hrest]; subst.
      apply (step_flag_is_flag a v c0) in Hf as [c' Hc']. rewrite Hc'.
      apply IH. exact Hrest.
Qed.

Lemma step_flag_fields (a v : string) (c c' : config) :
  step_flag a v c = Some c' ->
  file_path c' = (if (a =? "--file")%string then Some v else file_path c) /\
  mode c' = (if (a =? "--mode")%string then Some v else mode c) /\
  record_size c' = (if (a =? "--record-size")%string
                    then to_u64 (strtoull v) else record_size c) /\
  total_bytes c' = (if (a =? "--total-bytes")%string
                    then strtoll v else total_bytes c) /\
  seed c' = (if (a =? "--seed")%string
             then to_u32 (strtoul v) else seed c).
Proof.
  unfold step_flag.
  destruct (a =? "--file")%string eqn:E1;
    [apply String.eqb_eq in E1; subst a; intros [= <-]; repeat split|].
  destruct (a =? "--mode")%string eqn:E2;
    [apply String.eqb_eq in E2; subst a; intros [= <-]; repeat split|].
  destruct (a =? "--record-size")%string eqn:E3;
    [apply String.eqb_eq in E3; subst a; intros [= <-]; repeat split|].
  destruct (a =? "--total-bytes")%string eqn:E4;
    [apply String.eqb_eq in E4; subst a; intros [= <-]; repeat split|].
  destruct (a =? "--seed")%string eqn:E5; [|discriminate].
  intros [= <-]. repeat split.
Qed.

Lemma last_value_step (f a v : string) (rest : list string) :
  last_value f (a :: v :: rest) =
  match last_value f rest with
  | Some x => Some x
  | None => if (a =? f)%string then Some v else None
  end.
Proof. reflexivity. Qed.

(** The fields after the loop, from any starting configuration. *)
Lemma parse_args_fields (args : list string) :
  forall c0 c, parse_args args c0 = inl c ->
  file_path c = match last_value "--file" args with
                | Some v => Some v | None => file_path c0 end /\
  mode c = match last_value "--mode" args with
           | Some v => Some v | None => mode c0 end /\
  record_size c = match last_value "--record-size" args with
                  | Some v => to_u64 (strtoull v) | None => record_size c0 end /\
  total_bytes c = match last_value "--total-bytes" args with
                  | Some v => strtoll v | None => total_bytes c0 end /\
  seed c = match last_value "--seed" args with
           | Some v => to_u32 (strtoul v) | None => seed c0 end.
Proof.
  induction args as [| a | a v rest IH] using list_pair_ind; intros c0 c.
  - intros [= <-]. repeat split.
  - discriminate.
  - rewrite parse_args_step.
    destruct (step_flag a v c0) as [c'|] eqn:E; [|discriminate].
    intros H. destruct (IH c' c H) as (H1 & H2 & H3 & H4 & H5).
    destruct (step_flag_fields a v c0 c' E) as (F1 & F2 & F3 & F4 & F5).
    rewrite !last_value_step.
    rewrite H1, H2, H3, H4, H5, F1, F2, F3, F4, F5.
    repeat split;
      match goal with
      | |- context [last_value ?f rest] => destruct (last_value f rest)
      end; try reflexivity;
      match goal with
      | |- context [(a =? ?f)%string] => destruct (a =? f)%string
      end; reflexivity.
Qed.

(** X2: after the argument loop every option holds the conversion of the
    argument that follows its last occurrence in flag position, and its
    initial value (no path, no mode, 0, 0, seed 12345) when the flag does
    not occur. *)
Theorem parse_args_last_values (args : list string) (c : config) :
  parse_args args init_config = inl c ->
  file_path c = last_value "--file" args /\
  mode c = last_value "--mode" args /\
  record_size c = match last_value "--record-size" args with
                  | Some v => to_u64 (strtoull v) | None => 0 end /\
  total_bytes c = match last_value "--total-bytes" args with
                  | Some v => strtoll v | None => 0 end /\
  seed c = match last_value "--seed" args with
           | Some v => to_u32 (strtoul v) | None => 12345 end.
Proof.
  intros H. destruct (parse_args_fields args init_config c H)
    as (H1 & H2 & H3 & H4 & H5).
  rewrite H1, H2, H3, H4, H5. simpl.
  repeat split;
    match goal with
    | |- context [last_value ?f args] => destruct (last_value f args)
    end; reflexivity.
Qed.

Lemma parse_args_last_values_witness :
  let args := ["--seed"; "9"; "--mode"; "rand"; "--file"; "a.bin";
               "--mode"; "seq"; "--record-size"; "4k"; "--file";
               "--seed"]%string in
  let c := {| file_path := Some "--seed"%string; mode := Some "seq"%string;
              record_size := 4; total_bytes := 0; seed := 9 |} in
  file_path c = last_value "--file" args /\
  mode c = last_value "--mode" args /\
  record_size c = match last_value "--record-size" args with
                  | Some v => to_u64 (strtoull v) | None => 0 end /\
  total_bytes c = match last_value "--total-bytes" args with
                  | Some v => strtoll v | None => 0 end /\
  seed c = match last_value "--seed" args with
           | Some v => to_u32 (strtoul v) | None => 12345 end.
Proof.
  apply (parse_args_last_values
           ["--seed"; "9"; "--mode"; "rand"; "--file"; "a.bin";
            "--mode"; "seq"; "--record-size"; "4k"; "--file";
            "--seed"]%string
           {| file_path := Some "--seed"%string; mode := Some "seq"%string;
              record_size := 4; total_bytes := 0; seed := 9 |}).
  vm_compute. reflexivity.
Defined.

(** ** The checks before the loop, one failure at a time *)

(** X3: the missing-arguments diagnostic followed by the usage is the
    whole output of a run exactly when, after the argument loop, the path
    or the mode is unset, the record size is 0 or the working-set size is
    not positive; nothing else is done in that case. *)
Theorem missing_arguments_iff {P : PRNG} (prog : string)
  (args : list string) (w : world) (c : config) :
  parse_args args init_config = inl c ->
  (file_path c = None \/ mode c = None \/ record_size c = 0
   \/ total_bytes c <= 0) <->
  trace (main prog args w) = [eprint DMissingRequired; usage prog].
Proof.
  intros Hparse. split.
  - intros Hmiss.
    destruct (main_exit_path prog args w c Hparse); same_args;
      try reflexivity; exfalso; intuition (try congruence; try lia).
  - intros Htrace.
    destruct (main_exit_path prog args w c Hparse);
      try assumption; try discriminate Htrace.
Qed.

Lemma missing_arguments_iff_witness :
  let args := ["--file"; "data.bin"; "--mode"; "seq"; "--record-size";
               "100"; "--total-bytes"; "-1000"]%string in
  let c := {| file_path := Some "data.bin"%string;
              mode := Some "seq"%string;
              record_size := 100; total_bytes := -1000; seed := 12345 |} in
  (file_path c = None \/ mode c = None \/ record_size c = 0
   \/ total_bytes c <= 0) <->
  trace (main (P := iso_c_prng) "fs_bench" args (plain_world 1000)) =
    [eprint DMissingRequired; usage "fs_bench"].
Proof.
  apply (missing_arguments_iff (P := iso_c_prng) "fs_bench"
           ["--file"; "data.bin"; "--mode"; "seq"; "--record-size";
            "100"; "--total-bytes"; "-1000"]%string (plain_world 1000)
           {| file_path := Some "data.bin"%string;
              mode := Some "seq"%string;
              record_size := 100; total_bytes := -1000; seed := 12345 |}).
  vm_compute. reflexivity.
Defined.

(** X4: with the four required values present and valid, a mode that is
    neither [rand] nor [seq], compared exactly, ends the run on the
    invalid-mode diagnostic naming it and the usage, with status 1 and
    before the file is opened. *)
Theorem invalid_mode_rejected {P : PRNG} (prog : string)
  (args : list string) (w : world) (c : config) (path m : string) :
  parse_args args init_config = inl c ->
  file_path c = Some path -> mode c = Some m ->
  record_size c <> 0 -> 0 < total_bytes c ->
  m <> "rand"%string -> m <> "seq"%string ->
  trace (main prog args w) = [eprint (DInvalidMode m); usage prog] /\
  exit_code (main prog args w) = 1.
Proof.
  intros Hparse Hf Hm Hr Ht Hrand Hseq.
  destruct (main_exit_path prog args w c Hparse); same_args;
    try (exfalso; intuition (try congruence; try lia); fail).
  split; reflexivity.
Qed.

Lemma invalid_mode_rejected_witness :
  let args := ["--file"; "data.bin"; "--mode"; "RAND"; "--record-size";
               "100"; "--total-bytes"; "1000"]%string in
  let r := main (P := iso_c_prng) "fs_bench" args (plain_world 1000) in
  trace r = [eprint (DInvalidMode "RAND"); usage "fs_bench"] /\
  exit_code r = 1.
Proof.
  apply (invalid_mode_rejected (P := iso_c_prng) "fs_bench"
           ["--file"; "data.bin"; "--mode"; "RAND"; "--record-size";
            "100"; "--total-bytes"; "1000"]%string (plain_world 1000)
           {| file_path := Some "data.bin"%string;
              mode := Some "RAND"%string;
              record_size := 100; total_bytes := 1000; seed := 12345 |}
           "data.bin" "RAND").
  - vm_compute. reflexivity.
  - reflexivity.
  - reflexivity.
  - simpl. lia.
  - simpl. lia.
  - discriminate.
  - discriminate.
Defined.

(** X5: when [open] fails the run prints the open diagnostic with the
    path and the error number and returns 1: it calls neither [fstat] nor
    [close], and does not print the usage. *)
Theorem open_failure {P : PRNG} (prog : string) (args : list string)
  (w : world) (c : config) (path m : string) (fd e : Z) :
  parse_args args init_config = inl c ->
  valid_args c path m ->
  sys_open w path = (fd, e) -> fd < 0 ->
  trace (main prog args w) = [EvOpen path; eprint (DOpenFailed path e)] /\
  exit_code (main prog args w) = 1.
Proof.
  intros Hparse Hv Ho Hfd.
  destruct (main_exit_path prog args w c Hparse); same_world;
    try (exfalso; intuition (try congruence; try lia); fail);
    try lia.
  split; reflexivity.
Qed.

Lemma open_failure_witness :
  let args := ["--file"; "data.bin"; "--mode"; "seq"; "--record-size";
               "100"; "--total-bytes"; "1000"]%string in
  let r := main (P := iso_c_prng) "fs_bench" args (open_error_world 2) in
  trace r = [EvOpen "data.bin"; eprint (DOpenFailed "data.bin" 2)] /\
  exit_code r = 1.
Proof.
  apply (open_failure (P := iso_c_prng) "fs_bench"
           ["--file"; "data.bin"; "--mode"; "seq"; "--record-size";
            "100"; "--total-bytes"; "1000"]%string (open_error_world 2)
           {| file_path := Some "data.bin"%string;
              mode := Some "seq"%string;
              record_size := 100; total_bytes := 1000; seed := 12345 |}
           "data.bin" "seq" (-1) 2).
  - vm_compute. reflexivity.
  - unfold valid_args. simpl. repeat split; auto; lia.
  - reflexivity.
  - lia.
Defined.

(** X6: when [fstat] fails on the opened file the run prints the fstat
    diagnostic with the path and the error number, closes the descriptor
    and returns 1. *)
Theorem fstat_failure {P : PRNG} (prog : string) (args : list string)
  (w : world) (c : config) (path m : string) (fd e ret size se : Z) :
  parse_args args init_config = inl c ->
  valid_args c path m ->
  sys_open w path = (fd, e) -> 0 <= fd ->
  sys_fstat w fd = (ret, size, se) -> ret < 0 ->
  trace (main prog args w) =
    [EvOpen path; EvFstat fd; eprint (DFstatFailed path se); EvClose fd] /\
  exit_code (main prog args w) = 1.
Proof.
  intros Hparse Hv Ho Hfd Hs Hret.
  destruct (main_exit_path prog args w c Hparse); same_world;
    try (exfalso; intuition (try congruence; try lia); fail);
    try lia.
  split; reflexivity.
Qed.

Lemma fstat_failure_witness :
  let args := ["--file"; "data.bin"; "--mode"; "seq"; "--record-size";
               "100"; "--total-bytes"; "1000"]%string in
  let r := main (P := iso_c_prng) "fs_bench" args (fstat_error_world 5) in
  trace r = [EvOpen "data.bin"; EvFstat 3;
             eprint (DFstatFailed "data.bin" 5); EvClose 3] /\
  exit_code r = 1.
Proof.
  apply (fstat_failure (P := iso_c_prng) "fs_bench"
           ["--file"; "data.bin"; "--mode"; "seq"; "--record-size";
            "100"; "--total-bytes"; "1000"]%string (fstat_error_world 5)
           {| file_path := Some "data.bin"%string;
              mode := Some "seq"%string;
              record_size := 100; total_bytes := 1000; seed := 12345 |}
           "data.bin" "seq" 3 0 (-1) 0 5).
  - vm_compute. reflexivity.
  - unfold valid_args. simpl. repeat split; auto; lia.
  - reflexivity.
  - lia.
  - reflexivity.
  - lia.
Defined.

(** X7: when the buffer cannot be allocated the run has seeded the
    generator and issued no read; it prints the allocation diagnostic,
    closes the descriptor and returns 1. *)
Theorem malloc_failure {P : PRNG} (prog : string) (args : list string)
  (w : world) (c : config) (path m : string) (fd e ret size se : Z) :
  parse_args args init_config = inl c ->
  valid_args c path m ->
  sys_open w path = (fd, e) -> 0 <= fd ->
  sys_fstat w fd = (ret, size, se) -> 0 <= ret ->
  total_bytes c <= size -> record_size c <= total_bytes c ->
  sys_malloc w (record_size c) = false ->
  trace (main prog args w) =
    [EvOpen path; EvFstat fd; EvSrand (seed c); EvMalloc (record_size c);
     eprint (DMallocFailed (record_size c)); EvClose fd] /\
  exit_code (main prog args w) = 1.
Proof.
  intros Hparse Hv Ho Hfd Hs Hret Hsz Hle Hma.
  pose proof (parse_args_wf _ _ _ init_config_wf Hparse) as Hwf.
  assert (Hpos : 0 < record_size c).
  { destruct Hv as (_ & _ & Hnz & _). destruct Hwf as ((Hlo & _) & _). lia. }
  destruct (plan_of_valid c Hwf Hpos Hle) as (_ & Hops & _ & Hq).
  destruct (main_exit_path prog args w c Hparse); same_world;
    try (exfalso; intuition (try congruence; try lia); fail);
    try lia; try congruence.
  split; reflexivity.
Qed.

Lemma malloc_failure_witness :
  let args := ["--file"; "data.bin"; "--mode"; "seq"; "--record-size";
               "100"; "--total-bytes"; "1000"]%string in
  let r := main (P := iso_c_prng) "fs_bench" args (no_memory_world 1000) in
  trace r = [EvOpen "data.bin"; EvFstat 3; EvSrand 12345; EvMalloc 100;
             eprint (DMallocFailed 100); EvClose 3] /\
  exit_code r = 1.
Proof.
  apply (malloc_failure (P := iso_c_prng) "fs_bench"
           ["--file"; "data.bin"; "--mode"; "seq"; "--record-size";
            "100"; "--total-bytes"; "1000"]%string (no_memory_world 1000)
           {| file_path := Some "data.bin"%string;
              mode := Some "seq"%string;
              record_size := 100; total_bytes := 1000; seed := 12345 |}
           "data.bin" "seq" 3 0 0 1000 0).
  - vm_compute. reflexivity.
  - unfold valid_args. simpl. repeat split; auto; lia.
  - reflexivity.
  - lia.
  - reflexivity.
  - lia.
  - simpl. lia.
  - simpl. lia.
  - reflexivity.
Defined.

(** ** The loop: where it stops and what it leaves behind *)

Section LoopShape.
Context {P : PRNG}.
Variables (w : world) (fd : Z) (mode_rand : bool) (rsize max_offset : Z).

Let loop := workload w fd mode_rand rsize max_offset.
Let plan := planned_offsets mode_rand rsize max_offset.

(** The loop only reads on [fd] and prints, then frees and closes. *)
Lemma workload_body (n : nat) :
  forall i g, exists body,
    trace (loop n i g) = body ++ [EvFree; EvClose fd] /\
    Forall (read_or_print fd rsize) body.
Proof.
  subst loop. induction n as [|n IH]; intros i g; simpl.
  - exists []. split; [reflexivity | constructor].
  - destruct (next_offset mode_rand rsize max_offset i g) as [off g'].
    destruct (sys_pread w i fd rsize off) as [r e].
    destruct (r <? 0); simpl.
    + exists [EvPread fd rsize off; eprint (DPreadFailed off rsize e)].
      split; [reflexivity|]. repeat constructor.
    + destruct (IH (ll_add i 1) g') as (body & Hb & Hall).
      exists (EvPread fd rsize off :: body). rewrite Hb.
      split; [reflexivity|]. constructor; [split; reflexivity | exact Hall].
Qed.

(** The first read that fails is the last event of the loop before the
    diagnostic that reports it. *)
Lemma workload_first_failure (n : nat) :
  forall i g (k : nat) (off : Z),
    0 <= i -> i + Z.of_nat n <= LLONG_MAX ->
    nth_error (plan n i g) k = Some off ->
    (forall (j : nat) (o : Z), (j < k)%nat ->
       nth_error (plan n i g) j = Some o ->
       0 <= fst (sys_pread w (i + Z.of_nat j) fd rsize o)) ->
    fst (sys_pread w (i + Z.of_nat k) fd rsize off) < 0 ->
    loop n i g =
    {| exit_code := 1;
       trace := map (EvPread fd rsize) (firstn (S k) (plan n i g)) ++
                [eprint (DPreadFailed off rsize
                           (snd (sys_pread w (i + Z.of_nat k) fd rsize off)));
                 EvFree; EvClose fd] |}.
Proof.
  subst loop plan. induction n as [|n IH]; intros i g k off Hi Hn Hk Hok Hbad.
  - destruct k; discriminate Hk.
  - cbn [workload planned_offsets] in *.
    destruct (next_offset mode_rand rsize max_offset i g) as [off0 g'].
    assert (Hs : ll_add i 1 = i + 1).
    { unfold ll_add. apply to_s64_small.
      unfold in_s64, LLONG_MIN, LLONG_MAX in *. lia. }
    destruct k as [|k].
    + cbn [nth_error] in Hk. injection Hk as ->.
      rewrite Z.add_0_r in *.
      destruct (sys_pread w i fd rsize off) as [r e]. cbn [fst snd] in *.
      assert (Hneg : (r <? 0) = true) by lia. rewrite Hneg. reflexivity.
    + cbn [nth_error] in Hk.
      pose proof (Hok 0%nat off0 ltac:(lia) eq_refl) as H0.
      rewrite Z.add_0_r in H0.
      destruct (sys_pread w i fd rsize off0) as [r e]. cbn [fst] in H0.
      assert (Hpos : (r <? 0) = false) by lia. rewrite Hpos.
      rewrite Hs in *.
      rewrite (IH (i + 1) g' k off); try lia; try assumption.
      * unfold after. cbn [exit_code trace].
        replace (i + 1 + Z.of_nat k) with (i + Z.of_nat (S k)) by lia.
        reflexivity.
      * intros j o Hj Hnth.
        replace (i + 1 + Z.of_nat j) with (i + Z.of_nat (S j)) by lia.
        apply Hok; [lia | exact Hnth].
      * replace (i + 1 + Z.of_nat k) with (i + Z.of_nat (S k)) by lia.
        exact Hbad.
Qed.

End LoopShape.

(** X8: a failing read ends the run at once.  When the reads of the
    iterations before [k] succeed and the read of iteration [k] fails, the
    run consists of the preamble, the first [k + 1] planned reads, the
    read diagnostic with the offset, the size and the error number of
    that read, [free] and [close]; its status is 1. *)
Theorem read_failure_stops_run {P : PRNG} (prog : string)
  (args : list string) (w : world) (c : config) (path m : string)
  (fd e ret size se : Z) (k : nat) (off : Z) :
  parse_args args init_config = inl c ->
  valid_args c path m ->
  sys_open w path = (fd, e) -> 0 <= fd ->
  sys_fstat w fd = (ret, size, se) -> 0 <= ret ->
  total_bytes c <= size -> record_size c <= total_bytes c ->
  sys_malloc w (record_size c) = true ->
  nth_error (plan_offsets c (m =? "rand")%string) k = Some off ->
  (forall (j : nat) (o : Z), (j < k)%nat ->
     nth_error (plan_offsets c (m =? "rand")%string) j = Some o ->
     0 <= fst (sys_pread w (Z.of_nat j) fd (record_size c) o)) ->
  fst (sys_pread w (Z.of_nat k) fd (record_size c) off) < 0 ->
  trace (main prog args w) =
    [EvOpen path; EvFstat fd; EvSrand (seed c); EvMalloc (record_size c)] ++
    map (EvPread fd (record_size c))
      (firstn (S k) (plan_offsets c (m =? "rand")%string)) ++
    [eprint (DPreadFailed off (record_size c)
               (snd (sys_pread w (Z.of_nat k) fd (record_size c) off)));
     EvFree; EvClose fd] /\
  exit_code (main prog args w) = 1.
Proof.
  intros Hparse Hv Ho Hfd Hs Hret Hsz Hle Hma Hk Hok Hbad.
  pose proof (parse_args_wf _ _ _ init_config_wf Hparse) as Hwf.
  assert (Hpos : 0 < record_size c).
  { destruct Hv as (_ & _ & Hnz & _). destruct Hwf as ((Hlo & _) & _). lia. }
  destruct (plan_of_valid c Hwf Hpos Hle) as (Hp & Hops & _ & Hq).
  assert (Hn : 0 + Z.of_nat (Z.to_nat (ops_of c)) <= LLONG_MAX).
  { rewrite Z2Nat.id by lia. rewrite Hops.
    destruct Hp as (Hr & _ & Hmax).
    assert (total_bytes c / record_size c <= total_bytes c)
      by (apply Z.div_le_upper_bound; nia).
    lia. }
  destruct (main_exit_path prog args w c Hparse); same_world;
    try (exfalso; intuition (try congruence; try lia); fail);
    try lia; try congruence.
  unfold plan_offsets in Hk, Hok.
  erewrite (workload_first_failure w _ _ _ _ _ 0 _ k off);
    [split; reflexivity | lia | exact Hn | exact Hk | exact Hok | exact Hbad].
Qed.

Lemma read_failure_stops_run_witness :
  let args := ["--file"; "data.bin"; "--mode"; "seq"; "--record-size";
               "100"; "--total-bytes"; "1000"]%string in
  let c := {| file_path := Some "data.bin"%string;
              mode := Some "seq"%string;
              record_size := 100; total_bytes := 1000; seed := 12345 |} in
  let w := read_error_world 1000 2 5 in
  let r := main (P := iso_c_prng) "fs_bench" args w in
  trace r =
    [EvOpen "data.bin"; EvFstat 3; EvSrand 12345; EvMalloc 100] ++
    map (EvPread 3 100)
      (firstn 3 (plan_offsets (P := iso_c_prng) c ("seq" =? "rand")%string)) ++
    [eprint (DPreadFailed 200 100 (snd (sys_pread w 2 3 100 200)));
     EvFree; EvClose 3] /\
  exit_code r = 1.
Proof.
  apply (read_failure_stops_run (P := iso_c_prng) "fs_bench"
           ["--file"; "data.bin"; "--mode"; "seq"; "--record-size";
            "100"; "--total-bytes"; "1000"]%string
           (read_error_world 1000 2 5)
           {| file_path := Some "data.bin"%string;
              mode := Some "seq"%string;
              record_size := 100; total_bytes := 1000; seed := 12345 |}
           "data.bin" "seq" 3 0 0 1000 0 2%nat 200).
  - vm_compute. reflexivity.
  - unfold valid_args. simpl. repeat split; auto; lia.
  - reflexivity.
  - lia.
  - reflexivity.
  - lia.
  - simpl. lia.
  - simpl. lia.
  - reflexivity.
  - vm_compute. reflexivity.
  - intros j o Hj _.
    destruct j as [|[|j]]; [vm_compute; discriminate
                           | vm_compute; discriminate | lia].
  - vm_compute. reflexivity.
Defined.

Lemma closes_app (t u : list event) : closes (t ++ u) = closes t ++ closes u.
Proof. apply flat_map_app. Qed.

Lemma opens_app (t u : list event) : opens (t ++ u) = opens t ++ opens u.
Proof. apply flat_map_app. Qed.

Lemma frees_app (t u : list event) : frees (t ++ u) = frees t ++ frees u.
Proof. apply flat_map_app. Qed.

Lemma read_or_print_quiet (fd rsize : Z) (body : list event) :
  Forall (read_or_print fd rsize) body ->
  closes body = [] /\ opens body = [] /\ frees body = [] /\
  srands body = [] /\ stdout_of body = [].
Proof.
  induction 1 as [|e body He _ IH]; [repeat split|].
  destruct IH as (H1 & H2 & H3 & H4 & H5).
  destruct e as [[] d| | | | | | |]; simpl in *;
    try contradiction; repeat split; assumption.
Qed.

Lemma mallocs_app (t u : list event) :
  mallocs (t ++ u) = mallocs t ++ mallocs u.
Proof. apply flat_map_app. Qed.

Lemma read_or_print_no_malloc (fd rsize : Z) (body : list event) :
  Forall (read_or_print fd rsize) body -> mallocs body = [].
Proof.
  induction 1 as [|e body He _ IH]; [reflexivity|].
  destruct e as [[] d| | | | | | |]; simpl in *; try contradiction;
    assumption.
Qed.

(** X9: once the file is open, every way out of [main] closes the
    descriptor exactly once, as its last action, and opens nothing else.
    Between [fstat] and [close] one of three things happens.  The run
    stops before the allocation: nothing is allocated, read or freed.  Or
    [malloc] is called once, for one record, and fails: nothing is read or
    freed.  Or [malloc] is called once, for one record, and succeeds: all
    that follows is reads of [record_size] bytes on the descriptor and
    diagnostics, and then [free], exactly once, after the last read.  So
    the buffer is freed exactly on the paths where it was allocated. *)
Theorem descriptor_and_buffer_released {P : PRNG} (prog : string)
  (args : list string) (w : world) (c : config) (path m : string)
  (fd e : Z) :
  parse_args args init_config = inl c ->
  valid_args c path m ->
  sys_open w path = (fd, e) -> 0 <= fd ->
  exists mid,
    trace (main prog args w) = [EvOpen path; EvFstat fd] ++ mid ++ [EvClose fd] /\
    closes mid = [] /\ opens mid = [] /\
    ((mallocs mid = [] /\ preads mid = [] /\ frees mid = []) \/
     (sys_malloc w (record_size c) = false /\
      mallocs mid = [record_size c] /\ preads mid = [] /\ frees mid = []) \/
     (sys_malloc w (record_size c) = true /\
      mallocs mid = [record_size c] /\ frees mid = [tt] /\
      exists body,
        mid = [EvSrand (seed c); EvMalloc (record_size c)] ++ body ++ [EvFree] /\
        Forall (read_or_print fd (record_size c)) body)).
Proof.
  intros Hparse Hv Ho Hfd.
  destruct (main_exit_path prog args w c Hparse); same_world;
    try (exfalso; intuition (try congruence; try lia); fail);
    try lia.
  1-4: eexists [_]; split; [reflexivity|]; repeat split; left;
    repeat split; reflexivity.
  - eexists [_; _; _]. split; [reflexivity|]. repeat split. right. left.
    repeat split; try reflexivity. assumption.
  - match goal with
    | |- context [workload w ?f ?mr ?rs ?mo ?n ?i ?g] =>
        destruct (workload_body w f mr rs mo n i g) as (body & Hb & Hall)
    end.
    destruct (read_or_print_quiet _ _ _ Hall) as (Hc & Hop & Hfr & _).
    pose proof (read_or_print_no_malloc _ _ _ Hall) as Hmal.
    exists ([EvSrand (seed c); EvMalloc (record_size c)] ++ body ++ [EvFree]).
    unfold after. cbn [trace]. rewrite Hb.
    split; [|split; [|split]].
    + cbn [app]. rewrite <- !app_assoc. reflexivity.
    + rewrite !closes_app, Hc. reflexivity.
    + rewrite !opens_app, Hop. reflexivity.
    + right. right. split; [assumption|].
      split; [rewrite !mallocs_app, Hmal; reflexivity|].
      split; [rewrite !frees_app, Hfr; reflexivity|].
      exists body. split; [reflexivity | exact Hall].
Qed.

(** Two runs on a file of a thousand bytes: one whose third read fails,
    one whose allocation fails. *)
Lemma descriptor_and_buffer_released_witness :
  let args := ["--file"; "data.bin"; "--mode"; "seq"; "--record-size";
               "100"; "--total-bytes"; "1000"]%string in
  let r := main (P := iso_c_prng) "fs_bench" args
             (read_error_world 1000 2 5) in
  let r' := main (P := iso_c_prng) "fs_bench" args (no_memory_world 1000) in
  (mallocs (trace r) = [100] /\ frees (trace r) = [tt] /\
   closes (trace r) = [3] /\ last (trace r) EvFree = EvClose 3) /\
  (mallocs (trace r') = [100] /\ frees (trace r') = [] /\
   closes (trace r') = [3] /\ last (trace r') EvFree = EvClose 3) /\
  exists mid,
    trace r = [EvOpen "data.bin"; EvFstat 3] ++ mid ++ [EvClose 3] /\
    closes mid = [] /\ opens mid = [] /\
    ((mallocs mid = [] /\ preads mid = [] /\ frees mid = []) \/
     (true = false /\
      mallocs mid = [100] /\ preads mid = [] /\ frees mid = []) \/
     (true = true /\
      mallocs mid = [100] /\ frees mid = [tt] /\
      exists body,
        mid = [EvSrand 12345; EvMalloc 100] ++ body ++ [EvFree] /\
        Forall (read_or_print 3 100) body)).
Proof.
  split; [vm_compute; repeat split|].
  split; [vm_compute; repeat split|].
  apply (descriptor_and_buffer_released (P := iso_c_prng) "fs_bench"
           ["--file"; "data.bin"; "--mode"; "seq"; "--record-size";
            "100"; "--total-bytes"; "1000"]%string
           (read_error_world 1000 2 5)
           {| file_path := Some "data.bin"%string;
              mode := Some "seq"%string;
              record_size := 100; total_bytes := 1000; seed := 12345 |}
           "data.bin" "seq" 3 0).
  - vm_compute. reflexivity.
  - unfold valid_args. simpl. repeat split; auto; lia.
  - reflexivity.
  - lia.
Defined.

(** X10: a run either stops in the argument checks, and then its whole
    activity is one argument diagnostic followed by the usage, with
    status 1 and no system call; or it opens the configured file first,
    opens nothing else and never prints the usage. *)
Theorem usage_or_open {P : PRNG} (prog : string) (args : list string)
  (w : world) :
  let r := main prog args w in
  (exists d, argument_diag d /\
             trace r = [eprint d; usage prog] /\ exit_code r = 1) \/
  (exists c path rest,
     parse_args args init_config = inl c /\ file_path c = Some path /\
     trace r = EvOpen path :: rest /\ opens rest = [] /\
     forall p, ~ In (DUsage p) (stderr_of rest)).
Proof.
  intros r. subst r.
  destruct (parse_args args init_config) as [c|bad] eqn:Hparse.
  2:{ left. exists (DUnknownArg bad). unfold main. rewrite Hparse.
      repeat split. }
  destruct (main_exit_path prog args w c Hparse).
  1: left; exists DMissingRequired; repeat split.
  1: left; exists (DInvalidMode m); repeat split.
  all: right; exists c, path;
    match goal with H : valid_args _ _ _ |- _ =>
      destruct H as (Hf & _) end.
  1-6: eexists; split; [reflexivity|]; split; [exact Hf|];
    split; [reflexivity|]; split; [reflexivity|];
    intros p Hin; simpl in Hin; intuition discriminate.
  eexists. split; [reflexivity|]. split; [exact Hf|].
  split; [reflexivity|].
  pose proof (workload_streams w fd (m =? "rand")%string (record_size c)
                (max_offset_of c) (Z.to_nat (ops_of c)) 0 (srand (seed c)))
    as (_ & _ & Hop & Hzero & Hone).
  split; [exact Hop|]. intros p Hin. simpl in Hin.
  destruct (workload_exit w fd (m =? "rand")%string (record_size c)
              (max_offset_of c) (Z.to_nat (ops_of c)) 0 (srand (seed c)))
    as [Hz|Ho].
  - rewrite (Hzero Hz) in Hin. destruct Hin.
  - destruct (Hone Ho) as (off & e' & He). rewrite He in Hin.
    destruct Hin as [Hin|[]]. discriminate Hin.
Qed.

(** ** Where the reads fall *)

(** The facts that hold whenever a read appears in the trace. *)
Lemma pread_event_context {P : PRNG} (prog : string) (args : list string)
  (w : world) (c : config) (f count offset : Z) :
  parse_args args init_config = inl c ->
  In (EvPread f count offset) (trace (main prog args w)) ->
  exists (path m : string) (e ret size se : Z),
    valid_args c path m /\ sys_open w path = (f, e) /\ 0 <= f /\
    sys_fstat w f = (ret, size, se) /\ 0 <= ret /\
    total_bytes c <= size /\ 0 < ops_of c.
Proof.
  intros Hparse Hin.
  destruct (main_exit_path prog args w c Hparse);
    try (simpl in Hin; intuition discriminate).
  unfold after in Hin. cbn [trace app] in Hin.
  repeat (destruct Hin as [Hin|Hin]; [discriminate Hin|]).
  match goal with
  | _ : In _ (trace (workload w ?fd ?mr ?rs ?mo ?n ?i ?g)) |- _ =>
      destruct (workload_body w fd mr rs mo n i g) as (body & Hb & Hall)
  end.
  rewrite Hb in Hin. apply in_app_or in Hin as [Hin|Hin].
  - rewrite Forall_forall in Hall. destruct (Hall _ Hin) as [-> _].
    exists path, m, e, ret, size, se.
    split; [assumption|]. repeat split; assumption.
  - simpl in Hin. intuition discriminate.
Qed.

(** The offset bounds of every read in the trace. *)
Lemma pread_event_bounds {P : PRNG} (prog : string) (args : list string)
  (w : world) (c : config) (f count offset : Z) :
  rand_in_range P ->
  parse_args args init_config = inl c ->
  In (EvPread f count offset) (trace (main prog args w)) ->
  plan_ok (record_size c) (total_bytes c) /\
  count = record_size c /\
  0 <= offset <= total_bytes c - record_size c /\
  offset mod record_size c = 0.
Proof.
  intros Hrand Hparse Hin. apply in_preads in Hin.
  destruct (main_preads prog args w c Hparse)
    as [[Hnone _]
       | (m & k & Hm & Hmode & Hp & Hmo & Hops & Hpos & Hk & Hpre & _)].
  - rewrite Hnone in Hin. destruct Hin.
  - rewrite Hpre in Hin. apply in_map_iff in Hin as (off & [= <- <-] & Hoff).
    apply in_firstn in Hoff. unfold plan_offsets in Hoff. rewrite Hmo in Hoff.
    assert (Hn : 0 + Z.of_nat (Z.to_nat (ops_of c)) <= LLONG_MAX).
    { rewrite Z2Nat.id by lia. rewrite Hops.
      destruct Hp as (Hr & Hle & Hmax).
      assert (total_bytes c / record_size c <= total_bytes c)
        by (apply Z.div_le_upper_bound; nia).
      lia. }
    pose proof (planned_offsets_in_bounds (m =? "rand")%string
                  (record_size c) (total_bytes c) (Z.to_nat (ops_of c)) Hp
                  (fun _ => Hrand) 0 (srand (seed c)) ltac:(lia) Hn) as Hall.
    rewrite Forall_forall in Hall. destruct (Hall off Hoff) as (Hb & Hmod).
    repeat split; try apply Hp; try lia.
Qed.

(** X11: when the working set holds one record and less than two, a run
    reads at offset 0 only, in either mode and whatever the generator
    draws; a run that completes issues that single read. *)
Theorem single_record_working_set {P : PRNG} (prog : string)
  (args : list string) (w : world) (c : config) :
  parse_args args init_config = inl c ->
  0 < record_size c -> record_size c <= total_bytes c ->
  total_bytes c < 2 * record_size c ->
  let r := main prog args w in
  (forall f count offset,
     In (EvPread f count offset) (trace r) -> offset = 0) /\
  (exit_code r = 0 -> preads (trace r) = [(record_size c, 0)]).
Proof.
  intros Hparse Hr Hle Hlt r. subst r.
  assert (Hone : total_bytes c / record_size c = 1).
  { symmetry. apply (Z.div_unique _ _ 1 (total_bytes c - record_size c)); lia. }
  destruct (main_preads prog args w c Hparse)
    as [[Hnone Hexit]
       | (m & k & Hm & Hmode & Hp & Hmo & Hops & Hpos & Hk & Hpre & Hall)].
  - split; [|congruence]. intros f count offset Hin.
    apply in_preads in Hin. rewrite Hnone in Hin. destruct Hin.
  - assert (Hplan : plan_offsets c (m =? "rand")%string = [0]).
    { unfold plan_offsets. rewrite Hops, Hone, Hmo.
      change (Z.to_nat 1) with 1%nat. cbn [planned_offsets].
      destruct (block_count_of_ok _ _ Hp) as [Hbc _].
      unfold next_offset. rewrite Hbc.
      rewrite (Z.div_small (total_bytes c - record_size c)) by lia.
      change (0 + 1) with 1. unfold ll_rem, ll_mul.
      destruct (m =? "rand")%string.
      - destruct (rand (srand (seed c))) as [x g']. rewrite Z.rem_1_r.
        reflexivity.
      - reflexivity. }
    rewrite Hplan in Hpre. split.
    + intros f count offset Hin. apply in_preads in Hin. rewrite Hpre in Hin.
      apply in_map_iff in Hin as (off & [= <- <-] & Hoff).
      apply in_firstn in Hoff. destruct Hoff as [<-|[]]. reflexivity.
    + intros Hexit. rewrite Hpre, (Hall Hexit), Hops, Hone. reflexivity.
Qed.

Lemma single_record_working_set_witness :
  let args := ["--file"; "data.bin"; "--mode"; "rand"; "--record-size";
               "512"; "--total-bytes"; "1000"; "--seed"; "42"]%string in
  let r := main (P := iso_c_prng) "fs_bench" args (plain_world 4096) in
  (forall f count offset,
     In (EvPread f count offset) (trace r) -> offset = 0) /\
  (exit_code r = 0 -> preads (trace r) = [(512, 0)]).
Proof.
  apply (single_record_working_set (P := iso_c_prng) "fs_bench"
           ["--file"; "data.bin"; "--mode"; "rand"; "--record-size";
            "512"; "--total-bytes"; "1000"; "--seed"; "42"]%string
           (plain_world 4096)
           {| file_path := Some "data.bin"%string;
              mode := Some "rand"%string;
              record_size := 512; total_bytes := 1000; seed := 42 |}).
  - vm_compute. reflexivity.
  - simpl. lia.
  - simpl. lia.
  - simpl. lia.
Defined.

(** X12: no read reaches into the incomplete record at the end of the
    working set: every read ends at or before
    [record_size * (total_bytes div record_size)], so the last
    [total_bytes mod record_size] bytes of the working set are never
    read. *)
Theorem trailing_partial_record_unread {P : PRNG} (prog : string)
  (args : list string) (w : world) (c : config) (f count offset : Z) :
  rand_in_range P ->
  parse_args args init_config = inl c ->
  In (EvPread f count offset) (trace (main prog args w)) ->
  offset + count <= record_size c * (total_bytes c / record_size c) /\
  record_size c * (total_bytes c / record_size c) =
    total_bytes c - total_bytes c mod record_size c.
Proof.
  intros Hrand Hparse Hin.
  destruct (pread_event_bounds prog args w c f count offset Hrand Hparse Hin)
    as ((Hr & Hle & _) & -> & Hb & Hmod).
  split.
  - assert (Hoff : offset = record_size c * (offset / record_size c))
      by (apply Z_div_exact_full_2; lia).
    assert (Hq : offset / record_size c + 1 <= total_bytes c / record_size c)
      by (apply Z.div_le_lower_bound; lia).
    nia.
  - pose proof (Z.div_mod (total_bytes c) (record_size c) ltac:(lia)). lia.
Qed.

Lemma trailing_partial_record_unread_witness :
  let args := ["--file"; "data.bin"; "--mode"; "seq"; "--record-size";
               "300"; "--total-bytes"; "1000"]%string in
  let r := main (P := iso_c_prng) "fs_bench" args (plain_world 1000) in
  In (EvPread 3 300 600) (trace r) /\
  (600 + 300 <= 300 * (1000 / 300) /\
   300 * (1000 / 300) = 1000 - 1000 mod 300).
Proof.
  split.
  - vm_compute. in_list.
  - apply (trailing_partial_record_unread (P := iso_c_prng) "fs_bench"
             ["--file"; "data.bin"; "--mode"; "seq"; "--record-size";
              "300"; "--total-bytes"; "1000"]%string (plain_world 1000)
             {| file_path := Some "data.bin"%string;
                mode := Some "seq"%string;
                record_size := 300; total_bytes := 1000; seed := 12345 |}
             3 300 600).
    + exact iso_c_prng_in_range.
    + vm_compute. reflexivity.
    + vm_compute. in_list.
Defined.

(** X13: every read is issued on the descriptor that [open] returned for
    the configured path, and ends within the size that [fstat] reported
    for that descriptor. *)
Theorem reads_within_opened_file {P : PRNG} (prog : string)
  (args : list string) (w : world) (c : config) (f count offset : Z) :
  rand_in_range P ->
  parse_args args init_config = inl c ->
  In (EvPread f count offset) (trace (main prog args w)) ->
  exists path,
    file_path c = Some path /\ f = fst (sys_open w path) /\
    0 <= offset /\ offset + count <= snd (fst (sys_fstat w f)).
Proof.
  intros Hrand Hparse Hin.
  destruct (pread_event_bounds prog args w c f count offset Hrand Hparse Hin)
    as (_ & -> & Hb & _).
  destruct (pread_event_context prog args w c f _ offset Hparse Hin)
    as (path & m & e & ret & size & se & Hv & Ho & Hf & Hs & Hret & Hsz & _).
  exists path. rewrite Ho, Hs. cbn [fst snd].
  destruct Hv as (Hp & _). repeat split; auto; lia.
Qed.

Lemma reads_within_opened_file_witness :
  let args := ["--file"; "data.bin"; "--mode"; "rand"; "--record-size";
               "4096"; "--total-bytes"; "40960"; "--seed"; "7"]%string in
  let w := plain_world 50000 in
  let r := main (P := iso_c_prng) "fs_bench" args w in
  In (EvPread 3 4096 32768) (trace r) /\
  exists path,
    Some "data.bin"%string = Some path /\ 3 = fst (sys_open w path) /\
    0 <= 32768 /\ 32768 + 4096 <= snd (fst (sys_fstat w 3)).
Proof.
  split.
  - vm_compute. in_list.
  - apply (reads_within_opened_file (P := iso_c_prng) "fs_bench"
             ["--file"; "data.bin"; "--mode"; "rand"; "--record-size";
              "4096"; "--total-bytes"; "40960"; "--seed"; "7"]%string
             (plain_world 50000)
             {| file_path := Some "data.bin"%string;
                mode := Some "rand"%string;
                record_size := 4096; total_bytes := 40960; seed := 7 |}
             3 4096 32768).
    + exact iso_c_prng_in_range.
    + vm_compute. reflexivity.
    + vm_compute. in_list.
Defined.

(** ** Random mode: the offsets as a function of the draws *)

Section RandomPlan.
Context {P : PRNG}.

Lemma planned_offsets_rand (rsize total : Z) (n : nat) :
  plan_ok rsize total -> rand_in_range P ->
  forall i g, 0 <= i -> i + Z.of_nat n <= LLONG_MAX ->
  planned_offsets true rsize (total - rsize) n i g =
  map (offset_at rsize total) (draws n g).
Proof.
  intros Hp Hrand. induction n as [|n IH]; intros i g Hi Hn;
    cbn [planned_offsets draws map]; [reflexivity|].
  rewrite (next_offset_ok true _ _ i g Hp (proj1 (Hrand g))).
  assert (Hs : ll_add i 1 = i + 1).
  { unfold ll_add. apply to_s64_small.
    unfold in_s64, LLONG_MIN, LLONG_MAX in *. lia. }
  destruct (rand g) as [x g']. cbn [fst snd map]. f_equal.
  apply IH; rewrite Hs; lia.
Qed.

Lemma firstn_draws (k n : nat) :
  forall g, (k <= n)%nat -> firstn k (draws n g) = draws k g.
Proof.
  revert n. induction k as [|k IH]; intros n g Hk; [reflexivity|].
  destruct n as [|n]; [lia|]. cbn [draws].
  destruct (rand g) as [x g']. cbn [firstn]. f_equal. apply IH. lia.
Qed.

End RandomPlan.

(** X14: in Random mode the offsets issued are
    [(draw mod block_count) * record_size] for the successive values of
    [rand] after [srand(seed)], one draw per read and in that order; a run
    that completes uses exactly the first [op_count] draws. *)
Theorem random_offsets_follow_draws {P : PRNG} (prog : string)
  (args : list string) (w : world) (c : config) :
  rand_in_range P ->
  parse_args args init_config = inl c ->
  mode c = Some "rand"%string ->
  let r := main prog args w in
  let op_count := total_bytes c / record_size c in
  exists k : nat,
    (k <= Z.to_nat op_count)%nat /\
    pread_offsets (trace r) =
      map (offset_at (record_size c) (total_bytes c))
        (draws k (srand (seed c))) /\
    (exit_code r = 0 -> k = Z.to_nat op_count).
Proof.
  intros Hrand Hparse Hmode r op_count. subst r op_count.
  unfold pread_offsets.
  destruct (main_preads prog args w c Hparse)
    as [[Hnone Hone]
       | (m & k & Hm & _ & Hp & Hmo & Hops & Hpos & Hk & Hpre & Hall)].
  - exists 0%nat. rewrite Hnone. repeat split; [lia | congruence].
  - assert (m = "rand"%string) by congruence. subst m.
    exists k. rewrite Hpre, <- Hops. split; [exact Hk|]. split; [|exact Hall].
    rewrite map_map. cbn [snd]. rewrite map_id.
    unfold plan_offsets. rewrite Hmo.
    cbn [String.eqb Ascii.eqb Bool.eqb andb].
    rewrite planned_offsets_rand; auto; try lia.
    + rewrite firstn_map, firstn_draws by lia. reflexivity.
    + rewrite Z2Nat.id by lia. rewrite Hops.
      destruct Hp as (Hr & Hle & Hmax).
      assert (total_bytes c / record_size c <= total_bytes c)
        by (apply Z.div_le_upper_bound; nia).
      lia.
Qed.

Lemma random_offsets_follow_draws_witness :
  let args := ["--file"; "data.bin"; "--mode"; "rand"; "--record-size";
               "4096"; "--total-bytes"; "40960"; "--seed"; "7"]%string in
  let r := main (P := iso_c_prng) "fs_bench" args (plain_world 40960) in
  exists k : nat,
    (k <= Z.to_nat (40960 / 4096))%nat /\
    pread_offsets (trace r) =
      map (offset_at 4096 40960) (draws (P := iso_c_prng) k 7) /\
    (exit_code r = 0 -> k = Z.to_nat (40960 / 4096)).
Proof.
  apply (random_offsets_follow_draws (P := iso_c_prng) "fs_bench"
           ["--file"; "data.bin"; "--mode"; "rand"; "--record-size";
            "4096"; "--total-bytes"; "40960"; "--seed"; "7"]%string
           (plain_world 40960)
           {| file_path := Some "data.bin"%string;
              mode := Some "rand"%string;
              record_size := 4096; total_bytes := 40960; seed := 7 |}).
  - exact iso_c_prng_in_range.
  - vm_compute. reflexivity.
  - reflexivity.
Defined.

(** Where [srand] stands in a run, by the outcome of the planning. *)
Lemma srand_after_planning {P : PRNG} (prog : string) (args : list string)
  (w : world) (c : config) :
  parse_args args init_config = inl c ->
  (planning_passes c w /\
   exists path post,
     file_path c = Some path /\
     trace (main prog args w) =
       [EvOpen path; EvFstat (fst (sys_open w path)); EvSrand (seed c);
        EvMalloc (record_size c)] ++ post /\
     srands post = []) \/
  (~ planning_passes c w /\
   srands (trace (main prog args w)) = [] /\
   preads (trace (main prog args w)) = []).
Proof.
  intros Hparse.
  destruct (main_exit_path prog args w c Hparse).
  1-7: right; split; [|split; reflexivity];
    intros (path' & m' & Hv' & Hrest); cbv zeta in Hrest;
    destruct Hrest as (Hfd' & Hret' & Hsz' & Hsm' & Hops');
    same_args;
    repeat match goal with
           | H : sys_open _ _ = _ |- _ =>
               rewrite H in *; clear H; cbn [fst snd] in *
           | H : sys_fstat _ _ = _ |- _ =>
               rewrite H in *; clear H; cbn [fst snd] in *
           end;
    try lia; intuition (try congruence; try lia).
  all: left; split;
    [ exists path, m; split; [assumption|]; cbv zeta;
      repeat match goal with
             | H : sys_open _ _ = _ |- _ => rewrite H; cbn [fst snd]
             | H : sys_fstat _ _ = _ |- _ => rewrite H; cbn [fst snd]
             end; repeat split; assumption
    | match goal with H : valid_args _ _ _ |- _ =>
        destruct H as (Hf & _) end;
      exists path; eexists; split; [exact Hf|];
      match goal with H : sys_open _ _ = _ |- _ => rewrite H end;
      split; [reflexivity|] ].
  - reflexivity.
  - apply (workload_streams w fd (m =? "rand")%string).
Qed.

(** X15: [srand] is called only once the planning checks have passed and
    then exactly once, in both modes, right after [open] and [fstat] and
    before the allocation; a run that stops earlier never calls it and
    reads nothing.  Its argument is the conversion to [unsigned int] of
    the last [--seed] value, and 12345 when the command line has no
    [--seed]. *)
Theorem seeded_once_with_last_seed {P : PRNG} (prog : string)
  (args : list string) (w : world) (c : config) :
  parse_args args init_config = inl c ->
  let r := main prog args w in
  let s := match last_value "--seed" args with
           | Some v => to_u32 (strtoul v)
           | None => 12345
           end in
  (planning_passes c w ->
   srands (trace r) = [s] /\
   exists path post,
     file_path c = Some path /\
     trace r = [EvOpen path; EvFstat (fst (sys_open w path)); EvSrand s;
                EvMalloc (record_size c)] ++ post /\
     srands post = []) /\
  (~ planning_passes c w ->
   srands (trace r) = [] /\ preads (trace r) = []) /\
  ((srands (trace r) = [] /\ preads (trace r) = []) \/
   srands (trace r) = [s]) /\
  (run_succeeds c w -> exit_code r = 0 /\ srands (trace r) = [s]).
Proof.
  intros Hparse r s. subst r s.
  destruct (parse_args_fields args init_config c Hparse)
    as (_ & _ & _ & _ & Hseed).
  cbn [seed init_config] in Hseed. rewrite <- Hseed.
  assert (Hseeded : forall path post,
            trace (main prog args w) =
              [EvOpen path; EvFstat (fst (sys_open w path)); EvSrand (seed c);
               EvMalloc (record_size c)] ++ post ->
            srands post = [] ->
            srands (trace (main prog args w)) = [seed c]).
  { intros path post Ht Hpost. rewrite Ht, srands_app, Hpost. reflexivity. }
  destruct (srand_after_planning prog args w c Hparse)
    as [(Hplan & path & post & Hf & Ht & Hpost) | (Hno & Hs & Hp)].
  - pose proof (Hseeded path post Ht Hpost) as Hsr.
    split; [|split; [|split]].
    + intros _. split; [exact Hsr|]. exists path, post. auto.
    + intros Hno. contradiction.
    + right. exact Hsr.
    + intros Hok. split; [|exact Hsr].
      apply (main_exit_zero_iff prog args w c Hparse). exact Hok.
  - split; [|split; [|split]].
    + intros Hplan. contradiction.
    + intros _. split; assumption.
    + left. split; assumption.
    + intros Hok. exfalso. apply Hno.
      destruct Hok as (path & m & Hf & Hm & Hnz & Htb & Hmode & Hrest).
      cbv zeta in Hrest.
      destruct Hrest as (Hfd & Hret & Hsz & Hsm & Hops & _).
      exists path, m. split; [repeat split; assumption|].
      cbv zeta. repeat split; assumption.
Qed.

(** A sequential run with two [--seed] flags, the last one above the
    range of [unsigned int]. *)
Lemma seeded_once_with_last_seed_witness :
  let args := ["--seed"; "1"; "--file"; "data.bin"; "--mode"; "seq";
               "--record-size"; "100"; "--total-bytes"; "1000";
               "--seed"; "4294967298"]%string in
  let w := plain_world 1000 in
  let r := main (P := iso_c_prng) "fs_bench" args w in
  srands (trace r) = [2] /\
  exists path post,
    Some "data.bin"%string = Some path /\
    trace r = [EvOpen path; EvFstat (fst (sys_open w path)); EvSrand 2;
               EvMalloc 100] ++ post /\
    srands post = [].
Proof.
  refine (proj1 (seeded_once_with_last_seed (P := iso_c_prng) "fs_bench"
                   ["--seed"; "1"; "--file"; "data.bin"; "--mode"; "seq";
                    "--record-size"; "100"; "--total-bytes"; "1000";
                    "--seed"; "4294967298"]%string (plain_world 1000)
                   {| file_path := Some "data.bin"%string;
                      mode := Some "seq"%string;
                      record_size := 100; total_bytes := 1000; seed := 2 |}
                   _) _).
  - vm_compute. reflexivity.
  - exists "data.bin"%string, "seq"%string.
    split; [unfold valid_args; simpl; repeat split; auto; lia|].
    simpl. repeat split; lia.
Defined.

(** ** What the run does not look at *)

Lemma workload_same_counts {P : PRNG} (w w' : world) (fd : Z)
  (mode_rand : bool) (rsize max_offset : Z) (n : nat) :
  same_up_to_read_counts w w' ->
  forall i g,
    workload w fd mode_rand rsize max_offset n i g =
    workload w' fd mode_rand rsize max_offset n i g.
Proof.
  intros (_ & _ & _ & Hread).
  induction n as [|n IH]; intros i g; [reflexivity|].
  cbn [workload].
  destruct (next_offset mode_rand rsize max_offset i g) as [off g'].
  destruct (Hread i fd rsize off) as [Hsign Herr].
  destruct (sys_pread w i fd rsize off) as [r e].
  destruct (sys_pread w' i fd rsize off) as [r' e'].
  cbn [fst snd] in *. rewrite <- Hsign.
  destruct (r <? 0) eqn:Hneg.
  - rewrite (Herr ltac:(lia)). reflexivity.
  - rewrite IH. reflexivity.
Qed.

(** X16: the number of bytes a read returns is never looked at beyond its
    sign: two environments that answer [open], [fstat] and [malloc] alike
    and in which the same reads fail, with the same error numbers, give
    the same run, so a short read goes unnoticed. *)
Theorem read_counts_ignored {P : PRNG} (prog : string)
  (args : list string) (w w' : world) :
  same_up_to_read_counts w w' ->
  main prog args w = main prog args w'.
Proof.
  intros Hsame. pose proof Hsame as (Ho & Hs & Hm & _).
  unfold main. destruct (parse_args args init_config) as [c|bad];
    [|reflexivity].
  unfold run. destruct (file_path c) as [path|]; [|reflexivity].
  destruct (mode c) as [m|]; [|reflexivity].
  destruct ((record_size c =? 0) || (total_bytes c <=? 0)); [reflexivity|].
  destruct (negb ((m =? "rand")%string || (m =? "seq")%string));
    [reflexivity|].
  unfold opened. rewrite <- (Ho path).
  destruct (sys_open w path) as [fd e]. f_equal.
  destruct (fd <? 0); [reflexivity|]. rewrite <- (Hs fd).
  destruct (sys_fstat w fd) as [[ret size] se]. f_equal.
  destruct (ret <? 0); [reflexivity|].
  destruct (size <=? 0); [reflexivity|].
  destruct (size <? total_bytes c); [reflexivity|].
  unfold planned. destruct (ops_of c <=? 0); [reflexivity|].
  rewrite <- (Hm (record_size c)). f_equal.
  destruct (sys_malloc w (record_size c)); cbn [negb]; [|reflexivity].
  apply workload_same_counts. exact Hsame.
Qed.

Lemma read_counts_ignored_witness :
  let args := ["--file"; "data.bin"; "--mode"; "seq"; "--record-size";
               "100"; "--total-bytes"; "1000"]%string in
  main (P := iso_c_prng) "fs_bench" args (plain_world 1000) =
  main (P := iso_c_prng) "fs_bench" args (short_read_world 1000).
Proof.
  apply (read_counts_ignored (P := iso_c_prng) "fs_bench"
           ["--file"; "data.bin"; "--mode"; "seq"; "--record-size";
            "100"; "--total-bytes"; "1000"]%string
           (plain_world 1000) (short_read_world 1000)).
  unfold same_up_to_read_counts. simpl. repeat split.
  destruct (Z.ltb_spec count 0) as [Hc|Hc].
  - symmetry. apply Z.ltb_lt. apply Z.div_lt_upper_bound; lia.
  - symmetry. apply Z.ltb_ge. apply Z.div_pos; lia.
Defined.

(** ** The arithmetic of the plan and of the loop *)

(** X17: past the argument checks no [long long] operation of [main]
    divides by zero or leaves the range of its type.  The divisor of the
    operation count is not zero and the quotient is representable; when
    the count is positive, the maximum offset, the block count (positive,
    so a valid divisor for [%]), the product of any block number with the
    record size, and the increments of the loop counter are all
    representable. *)
Theorem arithmetic_never_overflows (args : list string) (c : config) :
  parse_args args init_config = inl c ->
  record_size c <> 0 -> 0 < total_bytes c ->
  let rs := to_s64 (record_size c) in
  rs <> 0 /\
  in_s64 (Z.quot (total_bytes c) rs) /\
  (0 < ops_of c ->
   let block_count := Z.quot (max_offset_of c) rs + 1 in
   in_s64 (total_bytes c - rs) /\
   in_s64 (Z.quot (max_offset_of c) rs) /\
   in_s64 block_count /\ 0 < block_count /\
   block_count_of (max_offset_of c) (record_size c) = block_count /\
   (forall x, 0 <= x -> in_s64 (Z.rem x block_count * rs)) /\
   (forall i, 0 <= i < ops_of c -> in_s64 (i + 1))).
Proof.
  intros Hparse Hnz Htb rs.
  pose proof (parse_args_wf _ _ _ init_config_wf Hparse) as Hwf.
  pose proof Hwf as (Hr & Ht & _).
  unfold in_u64, in_s64, ULLONG_MAX, LLONG_MIN, LLONG_MAX in Hr, Ht.
  assert (Hrs : rs <> 0 /\ in_s64 (Z.quot (total_bytes c) rs)).
  { subst rs. unfold in_s64, LLONG_MIN, LLONG_MAX.
    destruct (Z_lt_le_dec (record_size c) (2 ^ 63)) as [Hlo|Hhi].
    - rewrite to_s64_small by (unfold in_s64, LLONG_MIN, LLONG_MAX; lia).
      split; [exact Hnz|]. rewrite Z.quot_div_nonneg by lia.
      assert (0 <= total_bytes c / record_size c)
        by (apply Z.div_pos; lia).
      assert (total_bytes c / record_size c <= total_bytes c)
        by (apply Z.div_le_upper_bound; nia).
      lia.
    - rewrite to_s64_high by (unfold ULLONG_MAX; lia).
      split; [lia|].
      pose proof (quot_neg_divisor (total_bytes c) (record_size c - 2 ^ 64)
                    ltac:(lia) ltac:(lia)).
      lia. }
  destruct Hrs as [Hrs0 Hq]. split; [exact Hrs0|]. split; [exact Hq|].
  intros Hops block_count.
  destruct (plan_facts c Hwf Hnz Htb Hops) as (Hp & Hs & Hopsv & Hmo).
  pose proof (block_count_of_ok _ _ Hp) as (Hbc & Hbpos).
  pose proof Hp as (Hrpos & Hle & Hmax). unfold LLONG_MAX in Hmax.
  assert (Hrs : rs = record_size c) by exact Hs.
  assert (Hbcv : block_count =
                 (total_bytes c - record_size c) / record_size c + 1).
  { subst block_count. rewrite Hrs, Hmo, Z.quot_div_nonneg by lia.
    reflexivity. }
  rewrite Hbcv, Hrs.
  assert (Hdiv : Z.quot (max_offset_of c) (record_size c) =
                 (total_bytes c - record_size c) / record_size c)
    by (rewrite Hmo, Z.quot_div_nonneg by lia; reflexivity).
  rewrite Hdiv. unfold in_s64, LLONG_MIN, LLONG_MAX.
  repeat split; try lia.
  - rewrite Hmo. exact Hbc.
  - pose proof (offset_at_bounds (record_size c) (total_bytes c) x Hp)
      as [Hb _].
    unfold offset_at in Hb. rewrite Z.rem_mod_nonneg by lia. lia.
  - pose proof (offset_at_bounds (record_size c) (total_bytes c) x Hp)
      as [Hb _].
    unfold offset_at in Hb. rewrite Z.rem_mod_nonneg by lia. lia.
  - rewrite Hopsv in *.
    assert (total_bytes c / record_size c <= total_bytes c)
      by (apply Z.div_le_upper_bound; nia).
    lia.
Qed.

Lemma arithmetic_never_overflows_witness :
  let c := {| file_path := Some "data.bin"%string;
              mode := Some "rand"%string;
              record_size := 18446744073709551611;
              total_bytes := 9223372036854775807; seed := 12345 |} in
  let rs := to_s64 (record_size c) in
  rs <> 0 /\
  in_s64 (Z.quot (total_bytes c) rs) /\
  (0 < ops_of c ->
   let block_count := Z.quot (max_offset_of c) rs + 1 in
   in_s64 (total_bytes c - rs) /\
   in_s64 (Z.quot (max_offset_of c) rs) /\
   in_s64 block_count /\ 0 < block_count /\
   block_count_of (max_offset_of c) (record_size c) = block_count /\
   (forall x, 0 <= x -> in_s64 (Z.rem x block_count * rs)) /\
   (forall i, 0 <= i < ops_of c -> in_s64 (i + 1))).
Proof.
  apply (arithmetic_never_overflows
           ["--file"; "data.bin"; "--mode"; "rand"; "--record-size"; "-5";
            "--total-bytes"; "99999999999999999999"]%string
           {| file_path := Some "data.bin"%string;
              mode := Some "rand"%string;
              record_size := 18446744073709551611;
              total_bytes := 9223372036854775807; seed := 12345 |}).
  - vm_compute. reflexivity.
  - simpl. lia.
  - simpl. lia.
Defined.

(** ** The complete run *)

Lemma workload_success {P : PRNG} (w : world) (fd : Z) (mode_rand : bool)
  (rsize max_offset : Z) (n : nat) :
  forall i g,
    0 <= i -> i + Z.of_nat n <= LLONG_MAX ->
    (forall (k : nat) (off : Z),
       nth_error (planned_offsets mode_rand rsize max_offset n i g) k =
         Some off ->
       0 <= fst (sys_pread w (i + Z.of_nat k) fd rsize off)) ->
    workload w fd mode_rand rsize max_offset n i g =
    {| exit_code := 0;
       trace := map (EvPread fd rsize)
                  (planned_offsets mode_rand rsize max_offset n i g) ++
                [EvFree; EvClose fd] |}.
Proof.
  induction n as [|n IH]; intros i g Hi Hn Hok; [reflexivity|].
  cbn [workload planned_offsets] in *.
  destruct (next_offset mode_rand rsize max_offset i g) as [off g'].
  assert (Hs : ll_add i 1 = i + 1).
  { unfold ll_add. apply to_s64_small.
    unfold in_s64, LLONG_MIN, LLONG_MAX in *. lia. }
  pose proof (Hok 0%nat off eq_refl) as H0. rewrite Z.add_0_r in H0.
  destruct (sys_pread w i fd rsize off) as [r e]. cbn [fst] in H0.
  assert (Hpos : (r <? 0) = false) by lia. rewrite Hpos.
  rewrite Hs in *. rewrite IH; [reflexivity | lia | lia |].
  intros k o Hk.
  replace (i + 1 + Z.of_nat k) with (i + Z.of_nat (S k)) by lia.
  apply Hok. exact Hk.
Qed.

(** X18: when every check passes and every planned read succeeds, the run
    is, in this order: [open] of the configured path, [fstat], [srand] of
    the seed, [malloc] of one record, the planned reads, each of
    [record_size] bytes on the opened descriptor, [free], [close]; nothing
    is printed and the status is 0. *)
Theorem successful_run_trace {P : PRNG} (prog : string)
  (args : list string) (w : world) (c : config) (path m : string) :
  parse_args args init_config = inl c ->
  file_path c = Some path -> mode c = Some m ->
  run_succeeds c w ->
  let fd := fst (sys_open w path) in
  main prog args w =
  {| exit_code := 0;
     trace := [EvOpen path; EvFstat fd; EvSrand (seed c);
               EvMalloc (record_size c)] ++
              map (EvPread fd (record_size c))
                (plan_offsets c (m =? "rand")%string) ++
              [EvFree; EvClose fd] |}.
Proof.
  intros Hparse Hf Hm (path' & m' & Hf' & Hm' & Hnz & Htb & Hmode & Hrest) fd.
  assert (path' = path) by congruence. assert (m' = m) by congruence.
  subst path' m' fd. cbv zeta in Hrest.
  destruct Hrest as (Hfd & Hret & Hsz & Hsm & Hops & Hma & Hreads).
  pose proof (parse_args_wf _ _ _ init_config_wf Hparse) as Hwf.
  destruct (loop_bounds c Hwf Hnz Htb Hops) as (Hp & Hmo & Hopsv & Hn).
  destruct (main_exit_path prog args w c Hparse); same_args;
    repeat match goal with
           | H : sys_open _ _ = _ |- _ =>
               rewrite H in *; clear H; cbn [fst snd] in *
           | H : sys_fstat _ _ = _ |- _ =>
               rewrite H in *; clear H; cbn [fst snd] in *
           end;
    try lia; try congruence;
    try (exfalso; intuition (try congruence; try lia); fail).
  unfold plan_offsets in *.
  rewrite (workload_success w _ _ _ _ _ 0 _ ltac:(lia) Hn Hreads).
  reflexivity.
Qed.

Lemma successful_run_trace_witness :
  let args := ["--file"; "data.bin"; "--mode"; "seq"; "--record-size";
               "400"; "--total-bytes"; "1000"]%string in
  let c := {| file_path := Some "data.bin"%string;
              mode := Some "seq"%string;
              record_size := 400; total_bytes := 1000; seed := 12345 |} in
  let w := short_read_world 1000 in
  let fd := fst (sys_open w "data.bin") in
  main (P := iso_c_prng) "fs_bench" args w =
  {| exit_code := 0;
     trace := [EvOpen "data.bin"; EvFstat fd; EvSrand 12345; EvMalloc 400] ++
              map (EvPread fd 400)
                (plan_offsets (P := iso_c_prng) c ("seq" =? "rand")%string) ++
              [EvFree; EvClose fd] |}.
Proof.
  apply (successful_run_trace (P := iso_c_prng) "fs_bench"
           ["--file"; "data.bin"; "--mode"; "seq"; "--record-size";
            "400"; "--total-bytes"; "1000"]%string (short_read_world 1000)
           {| file_path := Some "data.bin"%string;
              mode := Some "seq"%string;
              record_size := 400; total_bytes := 1000; seed := 12345 |}
           "data.bin" "seq").
  - vm_compute. reflexivity.
  - reflexivity.
  - reflexivity.
  - exists "data.bin"%string, "seq"%string. simpl.
    repeat split; auto; try lia.
    intros k off _. vm_compute. discriminate.
Defined.
